(** * The contribution registry (src/environment/providers/contribution.ts)

    A shallow embedding of the contribution registry: the entry store
    ([registerContributions], [replaceContributions], [unsubscribe]),
    the per-entry evaluation ([filterContributions], [evaluateContributions],
    the [try]/[catch] of [getContributions]), [mergeContributions] and the
    [combineLatest]/[map]/[distinctUntilChanged] pipeline that publishes the
    merged contributions.

    Conventions of the embedding:
    - an optional property ([title?: string]) is an [option]; [None] is the
      absent property;
    - a JavaScript object used as a dictionary ([MenuContributions]) is a
      [gmap] keyed by the menu name; [Object.entries] is [map_to_list], which
      lists the keys in the order of the map and not in the order of their
      insertion: the values computed do not depend on it, only which of
      several failing [when] expressions is the one whose exception is
      thrown;
    - object identity ([e !== entry]) is a reference carried by the object;
    - code that may throw or that calls the injected evaluators runs in the
      monad [M], which records every call in a log and stops at the first
      exception. *)

From stdpp Require Import gmap strings list fin_maps.

Set Default Proof Using "Type".
#[local] Set Warnings "-clear-no-such-hyp".


(** ** JavaScript values and truthiness *)

(** The result of a context expression ([evaluate] returns [any]). Numbers are
    modelled as integers. *)
Inductive JsValue : Type :=
  | JsUndefined
  | JsNull
  | JsBool (b : bool)
  | JsNumber (n : Z)
  | JsString (s : string).

(** Truthiness of a string: every string but the empty one. *)
Definition truthy_string (s : string) : bool :=
  match s with
  | EmptyString => false
  | String _ _ => true
  end.

(** Truthiness of a value, as tested by [!v] and [v && ...]. *)
Definition truthy (v : JsValue) : bool :=
  match v with
  | JsUndefined | JsNull => false
  | JsBool b => b
  | JsNumber n => negb (n =? 0)%Z
  | JsString s => truthy_string s
  end.

(** ** The protocol types *)

(** The module [../../protocol] is imported, not defined, by
    contribution.ts: the four types below follow the properties that the
    code reads and the description of the data model. *)

(** Modelled from the spec: [ActionItem], each of whose fields ([label],
    [description], [group], [iconURL], [iconDescription]) is optional and
    holds a literal or a template string. *)
Record ActionItem : Type := mkActionItem {
  ai_label : option string;
  ai_description : option string;
  ai_group : option string;
  ai_iconURL : option string;
  ai_iconDescription : option string;
}.

(** Modelled from the spec: [CommandContribution], which identifies a
    command and carries the optional display fields [title], [category],
    [description], [iconURL] and an optional nested [actionItem]. *)
Record CommandContribution : Type := mkCommand {
  command : string;
  title : option string;
  category : option string;
  description : option string;
  iconURL : option string;
  actionItem : option ActionItem;
}.

(** Modelled from the spec: [MenuItemContribution], the placement of a
    command in a menu, with an optional [when] expression; without [when]
    the item is always shown. *)
Record MenuItemContribution : Type := mkMenuItem {
  item_command : string;
  when : option string;
}.

(** [MenuContributions]: the items of each menu, by menu name. *)
Abbreviation MenuContributions := (gmap string (list MenuItemContribution)).

(** Modelled from the spec: [Contributions], with the two optional
    properties [commands] (an ordered sequence) and [menus] (from menu
    identifier to ordered sequence of items). *)
Record Contributions : Type := mkContributions {
  commands : option (list CommandContribution);
  menus : option MenuContributions;
}.

(** The object literal [{}]. *)
Definition emptyContributions : Contributions :=
  {| commands := None; menus := None |}.

Global Instance ActionItem_eq_dec : EqDecision ActionItem.
Proof. solve_decision. Defined.
Global Instance CommandContribution_eq_dec : EqDecision CommandContribution.
Proof. solve_decision. Defined.
Global Instance MenuItemContribution_eq_dec : EqDecision MenuItemContribution.
Proof. solve_decision. Defined.
Global Instance Contributions_eq_dec : EqDecision Contributions.
Proof. solve_decision. Defined.

(** The commands of a contribution, none when the property is absent. *)
Definition commandsOf (c : Contributions) : list CommandContribution :=
  default [] (commands c).

(** The items of one menu of a contribution, none when the property or the
    key is absent. *)
Definition menuItemsOf (c : Contributions) (menu : string)
  : list MenuItemContribution :=
  default [] (menus c ≫= (.!! menu)).

(** Whether the contribution has the menu key. *)
Definition hasMenu (c : Contributions) (menu : string) : Prop :=
  is_Some (menus c ≫= (.!! menu)).

(** ** mergeContributions *)

(** The body of the inner loop over [Object.entries(c.menus)]:
    [merged.menus[menu]] is created from [items] when absent and extended
    with [items] otherwise. *)
Definition mergeMenu (mergedMenus : MenuContributions)
    (entry : string * list MenuItemContribution) : MenuContributions :=
  let '(menu, items) := entry in
  match mergedMenus !! menu with
  | None => <[menu := items]> mergedMenus
  | Some old => <[menu := old ++ items]> mergedMenus
  end.

(** The [if (c.commands)] block of the outer loop. An array is truthy even
    when empty, so the test is on the presence of the property. *)
Definition mergeCommandsOf (merged : option (list CommandContribution))
    (c : Contributions) : option (list CommandContribution) :=
  match commands c with
  | Some cs =>
      match merged with
      | None => Some cs
      | Some ms => Some (ms ++ cs)
      end
  | None => merged
  end.

(** The [if (c.menus)] block of the outer loop. [{ ...c.menus }] and
    [[...items]] are copies: the assignments of the inner loop write to the
    object owned by [merged], never to an input. *)
Definition mergeMenusOf (merged : option MenuContributions)
    (c : Contributions) : option MenuContributions :=
  match menus c with
  | Some m =>
      match merged with
      | None => Some m
      | Some mm => Some (foldl mergeMenu mm (map_to_list m))
      end
  | None => merged
  end.

(** One iteration of [for (const c of contributions)]. *)
Definition mergeStep (merged c : Contributions) : Contributions :=
  {| commands := mergeCommandsOf (commands merged) c;
     menus := mergeMenusOf (menus merged) c |}.

Definition mergeContributions (contributions : list Contributions)
  : Contributions :=
  match contributions with
  | [] => emptyContributions
  | [c] => c
  | _ => foldl mergeStep emptyContributions contributions
  end.

(** ** Exceptions and the log of observable calls *)

(** The value thrown by an evaluator. *)
Inductive Error : Type :=
  | ExpressionError (message : string)
  | TemplateError (message : string).

Inductive Outcome (A : Type) : Type :=
  | Returned (a : A)
  | Thrown (err : Error).
Global Arguments Returned {A} a.
Global Arguments Thrown {A} err.

(** What the code does that an outside observer can count: the calls of the
    injected evaluators, with the string they receive, and the report of
    [console.error]. *)
Inductive Event : Type :=
  | CallEvaluate (expr : string)
  | CallNeedsEvaluation (template : string)
  | CallEvaluateTemplate (template : string)
  | ConsoleError (discarded : Contributions) (err : Error).

(** A computation that logs events and either returns or throws. *)
Definition M (A : Type) : Type := list Event * Outcome A.

Global Instance M_ret : MRet M := λ A a, ([], Returned a).

Global Instance M_bind : MBind M := λ A B f m,
  match m with
  | (log, Returned a) => let '(log', r) := f a in (log ++ log', r)
  | (log, Thrown err) => (log, Thrown err)
  end.

(** The log and the outcome of a computation. *)
Definition logOf {A} (m : M A) : list Event := m.1.
Definition outcomeOf {A} (m : M A) : Outcome A := m.2.

(** [for (const x of l) { acc = f(acc, x) }], stopping at the first throw. *)
Fixpoint forOf {A B} (f : B → A → M B) (acc : B) (l : list A) : M B :=
  match l with
  | [] => mret acc
  | x :: rest => acc' ← f acc x; forOf f acc' rest
  end.

(** ** The collaborators imported by contribution.ts *)

(** The modules [../context/context], [../context/expr/evaluator] and
    [../context/expr/lexer] are imported, not defined, by contribution.ts:
    the development is parametric in them. The evaluators are deterministic
    and may throw; [createChildContext] derives a context for one evaluation
    and leaves the shared one alone. The template evaluator is declared to
    return [any]; its results are taken to be strings, as the fields they are
    assigned to are. *)
Class Collaborators : Type := {
  Context : Type;
  MutableContext : Type;
  createChildContext : Context → MutableContext;
  evaluate : string → MutableContext → Outcome JsValue;
  evaluateTemplate : string → MutableContext → Outcome string;
  TEMPLATE_BEGIN : string;
}.

(** The third parameter of [evaluateContributions]. *)
Record TemplateEvaluator `{Collaborators} : Type := mkTemplateEvaluator {
  te_evaluateTemplate : string → MutableContext → Outcome string;
  te_needsEvaluation : string → bool;
}.

(** [haystack.includes(needle)]. *)
Fixpoint includes (haystack needle : string) : bool :=
  String.prefix needle haystack ||
  match haystack with
  | EmptyString => false
  | String _ rest => includes rest needle
  end.

Definition DEFAULT_TEMPLATE_EVALUATOR `{Collaborators} : TemplateEvaluator :=
  {| te_evaluateTemplate := evaluateTemplate;
     te_needsEvaluation := λ template, includes template TEMPLATE_BEGIN |}.

(** A call of an expression evaluator, logged. *)
Definition callEvaluate `{Collaborators}
    (evaluateExpr : string → MutableContext → Outcome JsValue)
    (expr : string) (context : MutableContext) : M JsValue :=
  ([CallEvaluate expr], evaluateExpr expr context).

(** A call of [needsEvaluation], logged; it cannot throw. *)
Definition callNeedsEvaluation `{Collaborators} (te : TemplateEvaluator)
    (template : string) : M bool :=
  ([CallNeedsEvaluation template], Returned (te_needsEvaluation te template)).

(** A call of the template evaluator, logged. *)
Definition callEvaluateTemplate `{Collaborators} (te : TemplateEvaluator)
    (template : string) (context : MutableContext) : M string :=
  ([CallEvaluateTemplate template], te_evaluateTemplate te template context).

(** ** contextFilter and filterContributions *)

(** [T extends { when?: string }]. *)
Class HasWhen (T : Type) : Type := whenOf : T → option string.
Global Instance MenuItemContribution_when : HasWhen MenuItemContribution := when.

(** The body of the loop of [contextFilter]: [continue] leaves [keep] as it
    is, otherwise the item is pushed. The right operand of [&&] is evaluated
    only when [item.when !== undefined]. *)
Definition contextFilterStep `{Collaborators} {T} `{HasWhen T}
    (context : Context)
    (evaluateExpr : string → MutableContext → Outcome JsValue)
    (keep : list T) (item : T) : M (list T) :=
  match whenOf item with
  | Some w =>
      v ← callEvaluate evaluateExpr w (createChildContext context);
      if negb (truthy v) then mret keep else mret (keep ++ [item])
  | None => mret (keep ++ [item])
  end.

Definition contextFilter `{Collaborators} {T} `{HasWhen T}
    (context : Context) (items : list T)
    (evaluateExpr : string → MutableContext → Outcome JsValue) : M (list T) :=
  forOf (contextFilterStep context evaluateExpr) [] items.

(** The body of the loop of [filterContributions]. *)
Definition filterMenu `{Collaborators} (context : Context)
    (evaluateExpr : string → MutableContext → Outcome JsValue)
    (filteredMenus : MenuContributions)
    (entry : string * list MenuItemContribution) : M MenuContributions :=
  let '(menu, items) := entry in
  kept ← contextFilter context items evaluateExpr;
  mret (<[menu := kept]> filteredMenus).

Definition filterContributions `{Collaborators} (context : Context)
    (contributions : Contributions)
    (evaluateExpr : string → MutableContext → Outcome JsValue)
  : M Contributions :=
  match menus contributions with
  | None => mret contributions
  | Some m =>
      filteredMenus ← forOf (filterMenu context evaluateExpr) ∅ (map_to_list m);
      mret {| commands := commands contributions; menus := Some filteredMenus |}
  end.

(** ** evaluateContributions *)

(** [Partial<ActionItem>]: [Some v] is a key of the object, with value [v]. *)
Record PartialActionItem : Type := mkPartialActionItem {
  p_label : option string;
  p_ai_description : option string;
  p_group : option string;
  p_ai_iconURL : option string;
  p_iconDescription : option string;
}.

(** [Partial<CommandContribution>], restricted to the keys the loop assigns. *)
Record PartialCommand : Type := mkPartialCommand {
  p_title : option string;
  p_category : option string;
  p_description : option string;
  p_iconURL : option string;
  p_actionItem : option ActionItem;
}.

(** [Object.keys(changedActionItem).length !== 0]. *)
Definition hasKeysActionItem (p : PartialActionItem) : bool :=
  bool_decide (is_Some (p_label p)) || bool_decide (is_Some (p_ai_description p))
  || bool_decide (is_Some (p_group p)) || bool_decide (is_Some (p_ai_iconURL p))
  || bool_decide (is_Some (p_iconDescription p)).

(** [Object.keys(changed).length !== 0]. *)
Definition hasKeys (p : PartialCommand) : bool :=
  bool_decide (is_Some (p_title p)) || bool_decide (is_Some (p_category p))
  || bool_decide (is_Some (p_description p)) || bool_decide (is_Some (p_iconURL p))
  || bool_decide (is_Some (p_actionItem p)).

(** One property of a spread [{ ...original, ...changed }]: the changed value
    when the key is in [changed], the original one otherwise. *)
Definition spreadField {A} (original changed : option A) : option A :=
  match changed with
  | Some v => Some v
  | None => original
  end.

(** [{ ...command.actionItem, ...changedActionItem }]. *)
Definition spreadActionItem (a : ActionItem) (p : PartialActionItem)
  : ActionItem :=
  {| ai_label := spreadField (ai_label a) (p_label p);
     ai_description := spreadField (ai_description a) (p_ai_description p);
     ai_group := spreadField (ai_group a) (p_group p);
     ai_iconURL := spreadField (ai_iconURL a) (p_ai_iconURL p);
     ai_iconDescription := spreadField (ai_iconDescription a) (p_iconDescription p) |}.

(** [{ ...command, ...changed }]. *)
Definition spreadCommand (c : CommandContribution) (p : PartialCommand)
  : CommandContribution :=
  {| command := command c;
     title := spreadField (title c) (p_title p);
     category := spreadField (category c) (p_category p);
     description := spreadField (description c) (p_description p);
     iconURL := spreadField (iconURL c) (p_iconURL p);
     actionItem := spreadField (actionItem c) (p_actionItem p) |}.

(** The statement repeated for each display field,
    [if (field && needsEvaluation(field)) changed.field =
    evaluateTemplate(field, childContext)]: the result is the key assigned to
    [changed], if any. [&&] evaluates its right operand only when the field is
    truthy, that is present and not the empty string. *)
Definition interpolateField `{Collaborators} (te : TemplateEvaluator)
    (childContext : MutableContext) (field : option string)
  : M (option string) :=
  match field with
  | Some s =>
      if truthy_string s then
        needed ← callNeedsEvaluation te s;
        if needed : bool then
          v ← callEvaluateTemplate te s childContext;
          mret (Some v)
        else mret None
      else mret None
  | None => mret None
  end.

(** The block [if (command.actionItem) { ... }]: the key [actionItem]
    assigned to [changed], if any. *)
Definition interpolateActionItem `{Collaborators} (te : TemplateEvaluator)
    (childContext : MutableContext) (a : option ActionItem)
  : M (option ActionItem) :=
  match a with
  | Some a =>
      l ← interpolateField te childContext (ai_label a);
      d ← interpolateField te childContext (ai_description a);
      g ← interpolateField te childContext (ai_group a);
      u ← interpolateField te childContext (ai_iconURL a);
      i ← interpolateField te childContext (ai_iconDescription a);
      let changedActionItem :=
        {| p_label := l; p_ai_description := d; p_group := g;
           p_ai_iconURL := u; p_iconDescription := i |} in
      if hasKeysActionItem changedActionItem
      then mret (Some (spreadActionItem a changedActionItem))
      else mret None
  | None => mret None
  end.

(** The object [changed] built for one command. *)
Definition changedOf `{Collaborators} (te : TemplateEvaluator)
    (childContext : MutableContext) (c : CommandContribution)
  : M PartialCommand :=
  t ← interpolateField te childContext (title c);
  g ← interpolateField te childContext (category c);
  d ← interpolateField te childContext (description c);
  u ← interpolateField te childContext (iconURL c);
  a ← interpolateActionItem te childContext (actionItem c);
  mret {| p_title := t; p_category := g; p_description := d;
          p_iconURL := u; p_actionItem := a |}.

(** An element pushed on [evaluatedCommands]: the very object of the input,
    or an object allocated by the spread. *)
Inductive EvaluatedCommand : Type :=
  | SameObject (c : CommandContribution)
  | NewObject (c : CommandContribution).

Definition objectValue (e : EvaluatedCommand) : CommandContribution :=
  match e with
  | SameObject c | NewObject c => c
  end.

(** The body of the loop over the commands, up to the value that is pushed:
    [modified ? { ...command, ...changed } : command]. *)
Definition evaluateCommand `{Collaborators} (context : Context)
    (te : TemplateEvaluator) (c : CommandContribution) : M EvaluatedCommand :=
  let childContext := createChildContext context in
  changed ← changedOf te childContext c;
  let modified := hasKeys changed in
  mret (if modified then NewObject (spreadCommand c changed) else SameObject c).

(** The loop over the commands. *)
Definition evaluateCommands `{Collaborators} (context : Context)
    (te : TemplateEvaluator) (cs : list CommandContribution)
  : M (list EvaluatedCommand) :=
  forOf (λ evaluatedCommands c,
           e ← evaluateCommand context te c;
           mret (evaluatedCommands ++ [e])) [] cs.

Definition evaluateContributions `{Collaborators} (context : Context)
    (contributions : Contributions) (te : TemplateEvaluator)
  : M Contributions :=
  match commands contributions with
  | None => mret contributions
  | Some [] => mret contributions
  | Some cs =>
      evaluatedCommands ← evaluateCommands context te cs;
      mret {| commands := Some (objectValue <$> evaluatedCommands);
              menus := menus contributions |}
  end.

(** ** The entry store *)

(** A registered entry. [entry_ref] is the identity of the object: [===] on
    two entries compares it. *)
Record ContributionsEntry : Type := mkEntry {
  entry_ref : nat;
  contributions : Contributions;
}.

(** [a === b] on entry objects. *)
Definition sameEntry (a b : ContributionsEntry) : bool :=
  bool_decide (entry_ref a = entry_ref b).

(** [ContributionUnsubscribable]: the entry of the handle; its [unsubscribe]
    is the function [unsubscribe] below, which closes over the same entry. *)
Record ContributionUnsubscribable : Type := mkUnsubscribable {
  entry : ContributionsEntry;
}.

(** The body of the [try] block of [getContributions]:
    [evaluateContributions(context, filterContributions(context, contributions))],
    with the default evaluators. *)
Definition tryEvaluate `{Collaborators} (context : Context)
    (contributions : Contributions) : M Contributions :=
  filtered ← filterContributions context contributions evaluate;
  evaluateContributions context filtered DEFAULT_TEMPLATE_EVALUATOR.

(** [entries.map(({ contributions }) => { try { ... } catch (err) { ... } })],
    for one entry: the log of the evaluation and the contributions it
    yields. *)
Definition evaluateEntry `{Collaborators} (context : Context)
    (contributions : Contributions) : list Event * Contributions :=
  match tryEvaluate context contributions with
  | (log, Returned c) => (log, c)
  | (log, Thrown err) =>
      (log ++ [ConsoleError contributions err], emptyContributions)
  end.

(** The first [map] of the pipeline. *)
Definition evaluateEntries `{Collaborators} (context : Context)
    (entries : list ContributionsEntry) : list Event * list Contributions :=
  let results := (λ e, evaluateEntry context (contributions e)) <$> entries in
  (concat (fst <$> results), snd <$> results).

(** Both [map]s of the pipeline: the log and the merged contributions. *)
Definition aggregate `{Collaborators} (context : Context)
    (entries : list ContributionsEntry) : list Event * Contributions :=
  let '(log, cs) := evaluateEntries context entries in
  (log, mergeContributions cs).

(** Modelled from the spec: [isEqual] of [../../util] is not in the source
    given; the spec calls it a deep-equality check, which on the values of
    this model is equality. *)
Definition isEqual (a b : Contributions) : bool := bool_decide (a = b).

(** [distinctUntilChanged(compare)] on the values delivered so far (oldest
    first): a value is delivered unless [compare] holds of the last delivered
    one and it. *)
Definition distinctUntilChanged {A} (compare : A → A → bool)
    (delivered : list A) (v : A) : list A :=
  match last delivered with
  | Some previous => if compare previous v then delivered else delivered ++ [v]
  | None => delivered ++ [v]
  end.

(** The registry with one observer of [contributions], subscribed since the
    registry was built. *)
Record ContributionRegistry `{Collaborators} : Type := mkRegistry {
  (** [_entries.value] *)
  _entries : list ContributionsEntry;
  (** every value passed to [_entries.next], oldest first: what an observer
      of [entries] has seen after the initial value *)
  entriesEmitted : list (list ContributionsEntry);
  (** the latest context emitted by [this.context], if any *)
  latestContext : option Context;
  (** how many times the [map] stages have run *)
  recomputations : nat;
  (** the aggregates delivered to the observer of [contributions] *)
  published : list Contributions;
  (** the console *)
  console : list Event;
}.

(** [new ContributionRegistry(context)]: no entry, and [combineLatest] waits
    for the first context. *)
Definition newRegistry `{Collaborators} : ContributionRegistry :=
  {| _entries := []; entriesEmitted := []; latestContext := None;
     recomputations := 0; published := []; console := [] |}.

(** One emission of [combineLatest] run through [map], [map] and
    [distinctUntilChanged]. *)
Definition recompute `{Collaborators} (entries : list ContributionsEntry)
    (context : Context) (r : ContributionRegistry) : ContributionRegistry :=
  let '(log, merged) := aggregate context entries in
  {| _entries := _entries r; entriesEmitted := entriesEmitted r;
     latestContext := latestContext r;
     recomputations := S (recomputations r);
     published := distinctUntilChanged isEqual (published r) merged;
     console := console r ++ log |}.

(** [this._entries.next(value)]: the subject takes the value and notifies its
    observers; [combineLatest] emits if a context has been received. *)
Definition next `{Collaborators} (value : list ContributionsEntry)
    (r : ContributionRegistry) : ContributionRegistry :=
  let r' :=
    {| _entries := value; entriesEmitted := entriesEmitted r ++ [value];
       latestContext := latestContext r; recomputations := recomputations r;
       published := published r; console := console r |} in
  match latestContext r with
  | Some context => recompute value context r'
  | None => r'
  end.

(** The context observable emits [context]. *)
Definition contextNext `{Collaborators} (context : Context)
    (r : ContributionRegistry) : ContributionRegistry :=
  let r' :=
    {| _entries := _entries r; entriesEmitted := entriesEmitted r;
       latestContext := Some context; recomputations := recomputations r;
       published := published r; console := console r |} in
  recompute (_entries r) context r'.

Definition registerContributions `{Collaborators} (entry : ContributionsEntry)
    (r : ContributionRegistry) : ContributionRegistry * ContributionUnsubscribable :=
  (next (_entries r ++ [entry]) r, {| entry := entry |}).

(** [handle.unsubscribe()]. *)
Definition unsubscribe `{Collaborators} (handle : ContributionUnsubscribable)
    (r : ContributionRegistry) : ContributionRegistry :=
  next (filter (λ e, negb (sameEntry e (entry handle))) (_entries r)) r.

Definition replaceContributions `{Collaborators}
    (previous : ContributionUnsubscribable) (next_ : ContributionsEntry)
    (r : ContributionRegistry) : ContributionRegistry * ContributionUnsubscribable :=
  (next (filter (λ e, negb (sameEntry e (entry previous))) (_entries r) ++ [next_]) r,
   {| entry := next_ |}).

(** What a client and the context source can do to the registry. *)
Inductive Action `{Collaborators} : Type :=
  | Register (entry : ContributionsEntry)
  | Unsubscribe (handle : ContributionUnsubscribable)
  | Replace (previous : ContributionUnsubscribable) (next_ : ContributionsEntry)
  | ContextChange (context : Context).

Definition perform `{Collaborators} (r : ContributionRegistry) (a : Action)
  : ContributionRegistry :=
  match a with
  | Register e => (registerContributions e r).1
  | Unsubscribe h => unsubscribe h r
  | Replace h e => (replaceContributions h e r).1
  | ContextChange context => contextNext context r
  end.

(** The registry after a sequence of actions on a new registry. *)
Definition run `{Collaborators} (actions : list Action) : ContributionRegistry :=
  foldl perform newRegistry actions.

(** ** Vocabulary of the statements *)

(** The value of [merged.menus[menu]] after an iteration of the inner loop of
    [mergeContributions], given the old value and the items appended. *)
Definition appendItems (a b : list MenuItemContribution)
  : option (list MenuItemContribution) := Some (a ++ b).

(** [Outcome] as a monad: the first exception wins. *)
Global Instance Outcome_ret : MRet Outcome := λ A a, Returned a.

Global Instance Outcome_bind : MBind Outcome := λ A B f o,
  match o with
  | Returned a => f a
  | Thrown err => Thrown err
  end.

Global Instance Outcome_fmap : FMap Outcome := λ A B f o,
  match o with
  | Returned a => Returned (f a)
  | Thrown err => Thrown err
  end.

Section vocabulary.
Context `{Collaborators}.

(** Whether the evaluation of the [when] of an item throws. *)
Definition whenThrows (context : Context)
    (evaluateExpr : string → MutableContext → Outcome JsValue)
    (item : MenuItemContribution) : bool :=
  match when item with
  | Some w =>
      match evaluateExpr w (createChildContext context) with
      | Returned _ => false
      | Thrown _ => true
      end
  | None => false
  end.

(** An item is shown when its [when] is undefined or evaluates, against a
    child of the context, to a truthy value. *)
Definition shown (context : Context)
    (evaluateExpr : string → MutableContext → Outcome JsValue)
    (item : MenuItemContribution) : bool :=
  match when item with
  | Some w =>
      match evaluateExpr w (createChildContext context) with
      | Returned v => truthy v
      | Thrown _ => false
      end
  | None => true
  end.

(** The menus with, under each key, the items that are shown. *)
Definition shownMenus (context : Context)
    (evaluateExpr : string → MutableContext → Outcome JsValue)
    (m : MenuContributions) : MenuContributions :=
  filter (λ item, shown context evaluateExpr item) <$> m.

(** No [when] of any item of any menu throws. *)
Definition menusEvaluate (context : Context)
    (evaluateExpr : string → MutableContext → Outcome JsValue)
    (m : MenuContributions) : Prop :=
  map_Forall (λ _ items,
    Forall (λ item, whenThrows context evaluateExpr item = false) items) m.

(** A field is interpolated when it is present, not the empty string, and
    [needsEvaluation] holds of it. *)
Definition interpolated (te : TemplateEvaluator) (field : option string)
  : bool :=
  match field with
  | Some s => truthy_string s && te_needsEvaluation te s
  | None => false
  end.

(** The value of a display field after interpolation: the result of the
    template evaluator when the field is interpolated, the field itself
    otherwise. *)
Definition fieldAfter (te : TemplateEvaluator) (childContext : MutableContext)
    (field : option string) : Outcome (option string) :=
  match field with
  | Some s =>
      if interpolated te field
      then Some <$> te_evaluateTemplate te s childContext
      else Returned field
  | None => Returned None
  end.

(** Some sub-field of the action item is interpolated. *)
Definition interpolatedActionItem (te : TemplateEvaluator) (a : ActionItem)
  : bool :=
  interpolated te (ai_label a) || interpolated te (ai_description a)
  || interpolated te (ai_group a) || interpolated te (ai_iconURL a)
  || interpolated te (ai_iconDescription a).

(** Some display field of the command is interpolated. *)
Definition interpolatedCommand (te : TemplateEvaluator)
    (c : CommandContribution) : bool :=
  interpolated te (title c) || interpolated te (category c)
  || interpolated te (description c) || interpolated te (iconURL c)
  || from_option (interpolatedActionItem te) false (actionItem c).

(** The action item after interpolation, field by field. *)
Definition actionItemAfter (te : TemplateEvaluator)
    (childContext : MutableContext) (a : option ActionItem)
  : Outcome (option ActionItem) :=
  match a with
  | Some a =>
      l ← fieldAfter te childContext (ai_label a);
      d ← fieldAfter te childContext (ai_description a);
      g ← fieldAfter te childContext (ai_group a);
      u ← fieldAfter te childContext (ai_iconURL a);
      i ← fieldAfter te childContext (ai_iconDescription a);
      mret (Some {| ai_label := l; ai_description := d; ai_group := g;
                    ai_iconURL := u; ai_iconDescription := i |})
  | None => Returned None
  end.

(** The command after interpolation, field by field, and whether it is the
    object of the input: a new object exactly when a field is
    interpolated. *)
Definition commandAfter (context : Context) (te : TemplateEvaluator)
    (c : CommandContribution) : Outcome EvaluatedCommand :=
  let childContext := createChildContext context in
  t ← fieldAfter te childContext (title c);
  g ← fieldAfter te childContext (category c);
  d ← fieldAfter te childContext (description c);
  u ← fieldAfter te childContext (iconURL c);
  a ← actionItemAfter te childContext (actionItem c);
  mret (if interpolatedCommand te c
        then NewObject {| command := command c; title := t; category := g;
                          description := d; iconURL := u; actionItem := a |}
        else SameObject c).

(** The contributions of an entry as they enter the merge: evaluated, or
    empty when the evaluation threw. *)
Definition evaluated (context : Context) (e : ContributionsEntry)
  : Contributions :=
  (evaluateEntry context (contributions e)).2.

(** Whether the evaluation of the entry threw. *)
Definition evaluationThrows (context : Context) (e : ContributionsEntry)
  : Prop :=
  ∃ err, outcomeOf (tryEvaluate context (contributions e)) = Thrown err.
End vocabulary.

Section vocabulary_calls.
Context `{Collaborators}.

(** The nine display fields of a command, in the order the loop of
    [evaluateContributions] visits them. *)
Definition displaySlots (c : CommandContribution) : list (option string) :=
  [title c; category c; description c; iconURL c]
  ++ from_option (λ a, [ai_label a; ai_description a; ai_group a;
                        ai_iconURL a; ai_iconDescription a])
       [] (actionItem c).

(** The calls of the injected evaluators that a display field gives rise
    to: none for an absent or empty field, [needsEvaluation] otherwise,
    followed by the template evaluator when it holds. *)
Definition expectedCalls (te : TemplateEvaluator) (field : option string)
  : list Event :=
  match field with
  | Some s =>
      if truthy_string s then
        CallNeedsEvaluation s
        :: (if te_needsEvaluation te s then [CallEvaluateTemplate s] else [])
      else []
  | None => []
  end.

(** The display fields of a command that are present. *)
Definition displayFields (c : CommandContribution) : list string :=
  omap id (displaySlots c).

(** A field that is absent or the empty string. *)
Definition emptyField (field : option string) : Prop :=
  field = None ∨ field = Some "".

(** A field that interpolation leaves as it is when it is empty. *)
Definition keptIfEmpty (before after : option string) : Prop :=
  emptyField before → after = before.
End vocabulary_calls.

(** The calls of a computation are those of [expected]: all of them when it
    returns, the first of them when it throws. *)
Definition callsWithin {A} (m : M A) (expected : list Event) : Prop :=
  logOf m `prefix_of` expected
  ∧ ∀ a, outcomeOf m = Returned a → logOf m = expected.

(** The calls that the display fields of a command give rise to. *)
Definition expectedCallsOfCommand `{Collaborators} (te : TemplateEvaluator)
    (c : CommandContribution) : list Event :=
  concat (expectedCalls te <$> displaySlots c).

Global Instance menusEvaluate_dec `{Collaborators} context evaluateExpr m :
  Decision (menusEvaluate context evaluateExpr m).
Proof. unfold menusEvaluate. apply _. Defined.

(** An action item whose empty fields are left as they are. *)
Definition keptIfEmptyActionItem (before after : option ActionItem) : Prop :=
  match before with
  | Some a =>
      ∃ a', after = Some a'
            ∧ keptIfEmpty (ai_label a) (ai_label a')
            ∧ keptIfEmpty (ai_description a) (ai_description a')
            ∧ keptIfEmpty (ai_group a) (ai_group a')
            ∧ keptIfEmpty (ai_iconURL a) (ai_iconURL a')
            ∧ keptIfEmpty (ai_iconDescription a) (ai_iconDescription a')
  | None => after = None
  end.

(** A command whose empty display fields are left as they are. *)
Definition keptIfEmptyCommand (before after : CommandContribution) : Prop :=
  keptIfEmpty (title before) (title after)
  ∧ keptIfEmpty (category before) (category after)
  ∧ keptIfEmpty (description before) (description after)
  ∧ keptIfEmpty (iconURL before) (iconURL after)
  ∧ keptIfEmptyActionItem (actionItem before) (actionItem after).

Section vocabulary_registry.
Context `{Collaborators}.

(** The entry that an action registers, if any. *)
Definition introduced (a : Action) : option ContributionsEntry :=
  match a with
  | Register e | Replace _ e => Some e
  | Unsubscribe _ | ContextChange _ => None
  end.

(** Whether an action removes the entry [e] from the store, if it is
    there. *)
Definition removes (a : Action) (e : ContributionsEntry) : bool :=
  match a with
  | Unsubscribe h | Replace h _ => sameEntry e (entry h)
  | Register _ | ContextChange _ => false
  end.

(** No action of the list removes the entry. *)
Definition survives (actions : list Action) (e : ContributionsEntry) : bool :=
  forallb (λ a, negb (removes a e)) actions.

(** The entries currently registered after the actions: those that an
    action registered and that no later action removed, in the order of
    their registration. *)
Fixpoint currentlyRegistered (actions : list Action)
  : list ContributionsEntry :=
  match actions with
  | [] => []
  | a :: rest =>
      match introduced a with
      | Some e => if survives rest e then [e] else []
      | None => []
      end ++ currentlyRegistered rest
  end.

(** The latest context snapshot among the actions. *)
Definition lastContext (actions : list Action) : option Context :=
  last (omap (λ a, match a with ContextChange c => Some c | _ => None end)
          actions).

(** The commands that an entry contributes in a context: its commands
    filtered and interpolated, none when its evaluation throws. *)
Definition commandsContributed (context : Context) (e : ContributionsEntry)
  : list CommandContribution :=
  match outcomeOf (tryEvaluate context (contributions e)) with
  | Returned result => commandsOf result
  | Thrown _ => []
  end.

(** The aggregate computed when the action is performed, if the action
    makes [combineLatest] emit. *)
Definition computedBy (r : ContributionRegistry) (a : Action)
  : option Contributions :=
  match latestContext (perform r a) with
  | Some context => Some (aggregate context (_entries (perform r a))).2
  | None => None
  end.

(** What has been published last is the aggregate of the current entries
    and context. *)
Definition upToDate (r : ContributionRegistry) : Prop :=
  match latestContext r with
  | Some context =>
      last (published r) = Some (aggregate context (_entries r)).2
  | None => published r = []
  end.

(** Starting from the registry [r], no action registers an entry object
    that is among the entries the action leaves in the store. *)
Fixpoint registersFresh (r : ContributionRegistry) (actions : list Action)
  : Prop :=
  match actions with
  | [] => True
  | a :: rest =>
      (∀ e, introduced a = Some e →
         entry_ref e
         ∉ entry_ref <$> filter (λ x, negb (removes a x)) (_entries r))
      ∧ registersFresh (perform r a) rest
  end.
End vocabulary_registry.

(** No two consecutive elements of the list are equal. *)
Definition noRepeats {A} (l : list A) : Prop :=
  ∀ i a b, l !! i = Some a → l !! S i = Some b → a ≠ b.

(** ** Vocabulary of the further properties *)

Section vocabulary_more.
Context `{Collaborators}.

(** The items that an entry contributes to a menu in a context: the items
    of the menu that are shown, none when its evaluation throws. *)
Definition menuItemsContributed (context : Context) (menu : string)
    (e : ContributionsEntry) : list MenuItemContribution :=
  match outcomeOf (tryEvaluate context (contributions e)) with
  | Returned _ =>
      filter (λ item, shown context evaluate item)
        (menuItemsOf (contributions e) menu)
  | Thrown _ => []
  end.

(** The report that the evaluation of an entry sends to the console, if it
    throws. *)
Definition consoleErrorOf (context : Context) (e : ContributionsEntry)
  : option Event :=
  match outcomeOf (tryEvaluate context (contributions e)) with
  | Returned _ => None
  | Thrown err => Some (ConsoleError (contributions e) err)
  end.

Definition isContextChange (a : Action) : bool :=
  match a with
  | ContextChange _ => true
  | Register _ | Unsubscribe _ | Replace _ _ => false
  end.

(** The actions from the first change of context on. *)
Fixpoint fromFirstContext (actions : list Action) : list Action :=
  match actions with
  | [] => []
  | a :: rest => if isContextChange a then a :: rest else fromFirstContext rest
  end.

(** What the store emits last is what it holds. *)
Definition emittedLast (r : ContributionRegistry) : Prop :=
  match last (entriesEmitted r) with
  | Some entries => entries = _entries r
  | None => _entries r = []
  end.

(** No [when] of the contributions throws. *)
Definition filterable (context : Context)
    (evaluateExpr : string → MutableContext → Outcome JsValue)
    (c : Contributions) : Prop :=
  from_option (menusEvaluate context evaluateExpr) True (menus c).

(** The contributions with, under each menu key, the items that are
    shown. *)
Definition filteredOf (context : Context)
    (evaluateExpr : string → MutableContext → Outcome JsValue)
    (c : Contributions) : Contributions :=
  {| commands := commands c;
     menus := shownMenus context evaluateExpr <$> menus c |}.

(** No display field of the command contains [TEMPLATE_BEGIN]. *)
Definition plainCommand (c : CommandContribution) : Prop :=
  ∀ s, s ∈ displayFields c → includes s TEMPLATE_BEGIN = false.
End vocabulary_more.

Definition isConsoleError (ev : Event) : bool :=
  match ev with
  | ConsoleError _ _ => true
  | CallEvaluate _ | CallNeedsEvaluation _ | CallEvaluateTemplate _ => false
  end.

Global Instance filterable_dec `{Collaborators} context evaluateExpr c :
  Decision (filterable context evaluateExpr c).
Proof. unfold filterable. destruct (menus c); apply _. Defined.

(** An entry with the given reference and no contribution. *)
Definition emptyEntry (ref : nat) : ContributionsEntry :=
  {| entry_ref := ref; contributions := emptyContributions |}.

(** ** What an entry is expected to contribute *)

Section vocabulary_expected.
Context `{Collaborators}.

(** The evaluation of an entry fails when the [when] of one of its menu
    items throws, or when the interpolation of one of its commands does. *)
Definition entryFails (context : Context) (e : ContributionsEntry) : Prop :=
  ¬ filterable context evaluate (contributions e)
  ∨ ∃ err,
      mapM (commandAfter context DEFAULT_TEMPLATE_EVALUATOR)
        (commandsOf (contributions e))
      = Thrown err.

(** What an entry enters the merge as, stated on the contributions as they
    were registered: when no [when] throws and no interpolation does, its
    commands interpolated field by field and, under each of its menu keys,
    the items that are shown; the empty contributions otherwise. *)
Definition contributionExpected (context : Context) (e : ContributionsEntry)
  : Contributions :=
  if decide (filterable context evaluate (contributions e)) then
    match commands (contributions e) with
    | Some cs =>
        match mapM (commandAfter context DEFAULT_TEMPLATE_EVALUATOR) cs with
        | Returned es =>
            {| commands := Some (objectValue <$> es);
               menus := shownMenus context evaluate
                        <$> menus (contributions e) |}
        | Thrown _ => emptyContributions
        end
    | None =>
        {| commands := None;
           menus := shownMenus context evaluate <$> menus (contributions e) |}
    end
  else emptyContributions.

(** The commands that an entry is expected to contribute: its commands
    interpolated field by field, none when its evaluation fails. *)
Definition commandsExpected (context : Context) (e : ContributionsEntry)
  : list CommandContribution :=
  if decide (filterable context evaluate (contributions e)) then
    match mapM (commandAfter context DEFAULT_TEMPLATE_EVALUATOR)
            (commandsOf (contributions e)) with
    | Returned es => objectValue <$> es
    | Thrown _ => []
    end
  else [].

(** The calls of the expression evaluator that [contextFilter] is expected
    to make: one for each item that has a [when], in the order of the
    items, none after a call that throws. *)
Fixpoint whenCalls (context : Context)
    (evaluateExpr : string → MutableContext → Outcome JsValue)
    (items : list MenuItemContribution) : list Event :=
  match items with
  | [] => []
  | item :: rest =>
      match when item with
      | Some w =>
          CallEvaluate w
          :: (if whenThrows context evaluateExpr item then []
              else whenCalls context evaluateExpr rest)
      | None => whenCalls context evaluateExpr rest
      end
  end.
End vocabulary_expected.

(** ** An instance for the examples *)

(** A context is a dictionary; an expression is a key of it and evaluates to
    the value under the key; a template is a key whose value is a string and
    evaluates to that string. Anything else throws. *)
Definition exampleCollaborators : Collaborators :=
  {| Context := gmap string JsValue;
     MutableContext := gmap string JsValue;
     createChildContext := id;
     evaluate := λ expr context,
       match context !! expr with
       | Some v => Returned v
       | None => Thrown (ExpressionError expr)
       end;
     evaluateTemplate := λ template context,
       match context !! template with
       | Some (JsString s) => Returned s
       | _ => Thrown (TemplateError template)
       end;
     TEMPLATE_BEGIN := "${" |}.

(** A template evaluator whose [needsEvaluation] holds of every string. *)
Definition eagerEvaluator : @TemplateEvaluator exampleCollaborators :=
  {| te_evaluateTemplate := λ _ _, Returned "X";
     te_needsEvaluation := λ _, true |}.

Definition exampleContext : @Context exampleCollaborators :=
  {[ "${user}" := JsString "Bo"; "yes" := JsBool true; "no" := JsBool false ]}.

(** A command with the given identifier and title and nothing else. *)
Definition commandTitled (id : string) (t : option string)
  : CommandContribution :=
  {| command := id; title := t; category := None; description := None;
     iconURL := None; actionItem := None |}.

Definition menuItem (id : string) (w : option string) : MenuItemContribution :=
  {| item_command := id; when := w |}.

(** An entry with a templated title and an item that is always shown. *)
Definition helloEntry : ContributionsEntry :=
  {| entry_ref := 1;
     contributions :=
       {| commands := Some [commandTitled "a" (Some "${user}")];
          menus := Some {[ "editor/title" := [menuItem "a" None] ]} |} |}.

(** An entry whose [when] refers to a key that the context does not have:
    its evaluation throws. *)
Definition brokenEntry : ContributionsEntry :=
  {| entry_ref := 2;
     contributions :=
       {| commands := Some [commandTitled "b" (Some "plain")];
          menus := Some {[ "editor/title" := [menuItem "b" (Some "missing")] ]} |} |}.

(** An entry with an item that is shown and one that is not. *)
Definition otherEntry : ContributionsEntry :=
  {| entry_ref := 3;
     contributions :=
       {| commands := Some [commandTitled "c" None];
          menus := Some {[ "editor/title" :=
                             [menuItem "c" (Some "yes"); menuItem "d" (Some "no")] ]} |} |}.

(** * Properties *)

(** ** mergeContributions *)

Section merge.
Implicit Types (c merged : Contributions) (mm m : MenuContributions).
Implicit Types (l : list (string * list MenuItemContribution)).

Lemma foldl_mergeMenu_lookup l mm k :
  NoDup l.*1 →
  foldl mergeMenu mm l !! k
  = union_with appendItems (mm !! k) ((list_to_map l : MenuContributions) !! k).
Proof.
  revert mm. induction l as [|[menu items] l IH]; intros mm Hnd; simpl.
  - rewrite lookup_empty. by destruct (mm !! k).
  - apply NoDup_cons in Hnd as [Hnotin Hnd].
    rewrite IH by done.
    assert (Hl : (list_to_map l : MenuContributions) !! menu = None)
      by by apply not_elem_of_list_to_map_1.
    destruct (decide (menu = k)) as [->|Hne].
    + rewrite lookup_insert_eq, Hl.
      destruct (mm !! k) eqn:E; simpl; rewrite lookup_insert_eq; simpl; done.
    + rewrite lookup_insert_ne by done.
      destruct (mm !! menu) eqn:E; simpl; by rewrite lookup_insert_ne.
Qed.

(** The inner loop computes the key-wise concatenation of the two maps,
    whatever the order of [Object.entries]. *)
Lemma foldl_mergeMenu_union mm m :
  foldl mergeMenu mm (map_to_list m) = union_with appendItems mm m.
Proof.
  apply map_eq; intros k.
  rewrite foldl_mergeMenu_lookup by apply NoDup_fst_map_to_list.
  by rewrite list_to_map_to_list, lookup_union_with.
Qed.

Lemma union_with_appendItems_assoc (m1 m2 m3 : MenuContributions) :
  union_with appendItems (union_with appendItems m1 m2) m3
  = union_with appendItems m1 (union_with appendItems m2 m3).
Proof.
  apply map_eq; intros k. rewrite !lookup_union_with.
  destruct (m1 !! k), (m2 !! k), (m3 !! k); simpl; try done.
  unfold appendItems. by rewrite (assoc_L (++)).
Qed.

Lemma mergeStep_empty_l c : mergeStep emptyContributions c = c.
Proof.
  destruct c as [[cs|] [m|]]; reflexivity.
Qed.

Lemma mergeStep_empty_r c : mergeStep c emptyContributions = c.
Proof. by destruct c. Qed.

Lemma mergeStep_assoc a b c :
  mergeStep (mergeStep a b) c = mergeStep a (mergeStep b c).
Proof.
  destruct a as [[ca|] [ma|]], b as [[cb|] [mb|]], c as [[cc|] [mc|]];
    unfold mergeStep, mergeCommandsOf, mergeMenusOf; simpl;
    rewrite ?foldl_mergeMenu_union, ?union_with_appendItems_assoc,
      <-?(assoc_L (++)); reflexivity.
Qed.

Lemma foldl_mergeStep merged (cs : list Contributions) :
  foldl mergeStep merged cs
  = mergeStep merged (foldl mergeStep emptyContributions cs).
Proof.
  revert merged. induction cs as [|c cs IH]; intros merged; simpl.
  - by rewrite mergeStep_empty_r.
  - rewrite IH, (IH (mergeStep _ c)), mergeStep_empty_l.
    by rewrite mergeStep_assoc.
Qed.

(** The two shortcuts of [mergeContributions] agree with its loop. *)
Lemma mergeContributions_foldl (cs : list Contributions) :
  mergeContributions cs = foldl mergeStep emptyContributions cs.
Proof.
  destruct cs as [|c [|c' cs]]; simpl; try done.
  by rewrite mergeStep_empty_l.
Qed.

Lemma mergeContributions_app (cs1 cs2 : list Contributions) :
  mergeContributions (cs1 ++ cs2)
  = mergeStep (mergeContributions cs1) (mergeContributions cs2).
Proof.
  rewrite !mergeContributions_foldl, foldl_app.
  by rewrite foldl_mergeStep.
Qed.

Lemma mergeContributions_cons c (cs : list Contributions) :
  mergeContributions (c :: cs) = mergeStep c (mergeContributions cs).
Proof.
  change (c :: cs) with ([c] ++ cs). by rewrite mergeContributions_app.
Qed.

Lemma commands_mergeStep a b :
  commands (mergeStep a b)
  = match commands a, commands b with
    | Some x, Some y => Some (x ++ y)
    | Some x, None => Some x
    | None, y => y
    end.
Proof. by destruct a as [[?|] ?], b as [[?|] ?]. Qed.

Lemma commandsOf_mergeStep a b :
  commandsOf (mergeStep a b) = commandsOf a ++ commandsOf b.
Proof.
  unfold commandsOf. rewrite commands_mergeStep.
  destruct (commands a), (commands b); simpl; by rewrite ?app_nil_r.
Qed.

Lemma menus_mergeStep a b :
  menus (mergeStep a b)
  = match menus a, menus b with
    | Some x, Some y => Some (union_with appendItems x y)
    | Some x, None => Some x
    | None, y => y
    end.
Proof.
  destruct a as [? [?|]], b as [? [?|]]; simpl; try done.
  unfold mergeMenusOf; simpl. by rewrite foldl_mergeMenu_union.
Qed.

Lemma menu_lookup_mergeStep a b menu :
  menus (mergeStep a b) ≫= (.!! menu)
  = match menus a ≫= (.!! menu), menus b ≫= (.!! menu) with
    | Some x, Some y => Some (x ++ y)
    | Some x, None => Some x
    | None, y => y
    end.
Proof.
  rewrite menus_mergeStep.
  destruct (menus a) as [ma|], (menus b) as [mb|]; simpl; try done.
  - rewrite lookup_union_with. by destruct (ma !! menu), (mb !! menu).
  - by destruct (ma !! menu).
Qed.

Lemma menuItemsOf_mergeStep a b menu :
  menuItemsOf (mergeStep a b) menu = menuItemsOf a menu ++ menuItemsOf b menu.
Proof.
  unfold menuItemsOf. rewrite menu_lookup_mergeStep.
  destruct (menus a ≫= _), (menus b ≫= _); simpl; by rewrite ?app_nil_r.
Qed.

Lemma hasMenu_mergeStep a b menu :
  hasMenu (mergeStep a b) menu ↔ hasMenu a menu ∨ hasMenu b menu.
Proof.
  unfold hasMenu. rewrite menu_lookup_mergeStep.
  destruct (menus a ≫= _), (menus b ≫= _); simpl;
    rewrite ?is_Some_alt; naive_solver.
Qed.

Lemma commandsOf_mergeContributions (cs : list Contributions) :
  commandsOf (mergeContributions cs) = concat (commandsOf <$> cs).
Proof.
  induction cs as [|c cs IH]; [done|].
  by rewrite mergeContributions_cons, commandsOf_mergeStep, IH.
Qed.

Lemma menuItemsOf_mergeContributions (cs : list Contributions) menu :
  menuItemsOf (mergeContributions cs) menu
  = concat ((λ c, menuItemsOf c menu) <$> cs).
Proof.
  induction cs as [|c cs IH]; [done|].
  by rewrite mergeContributions_cons, menuItemsOf_mergeStep, IH.
Qed.

Lemma hasMenu_mergeContributions (cs : list Contributions) menu :
  hasMenu (mergeContributions cs) menu ↔ ∃ c, c ∈ cs ∧ hasMenu c menu.
Proof.
  induction cs as [|c cs IH].
  - split; [intros [? [=]]|intros (? & []%elem_of_nil & _)].
  - rewrite mergeContributions_cons, hasMenu_mergeStep, IH.
    setoid_rewrite elem_of_cons. naive_solver.
Qed.

Lemma commands_mergeContributions_is_Some (cs : list Contributions) :
  is_Some (commands (mergeContributions cs))
  ↔ ∃ c, c ∈ cs ∧ is_Some (commands c).
Proof.
  induction cs as [|c cs IH].
  - split; [intros [? [=]]|intros (? & []%elem_of_nil & _)].
  - rewrite mergeContributions_cons, commands_mergeStep.
    setoid_rewrite elem_of_cons.
    destruct (commands c) eqn:Ec.
    + split; [intros _; exists c; rewrite Ec; eauto|].
      intros _. by destruct (commands (mergeContributions cs)).
    + rewrite IH. split; [naive_solver|].
      intros (c' & [->|Hin] & Hs); [rewrite Ec in Hs; by destruct Hs|eauto].
Qed.
End merge.

Lemma menus_mergeContributions_is_Some (cs : list Contributions) :
  is_Some (menus (mergeContributions cs)) ↔ ∃ c, c ∈ cs ∧ is_Some (menus c).
Proof.
  induction cs as [|c cs IH].
  - split; [intros [? [=]]|intros (? & []%elem_of_nil & _)].
  - rewrite mergeContributions_cons, menus_mergeStep.
    setoid_rewrite elem_of_cons.
    destruct (menus c) eqn:Ec.
    + split; [intros _; exists c; rewrite Ec; eauto|].
      intros _. by destruct (menus (mergeContributions cs)).
    + rewrite IH. split; [naive_solver|].
      intros (c' & [->|Hin] & Hs); [rewrite Ec in Hs; by destruct Hs|eauto].
Qed.

(** C5. [mergeContributions] of no input is the empty contributions; of one
    input it is that input; and for every list of inputs (so for two or
    more), the commands of the result are the concatenation of the commands
    of the inputs in input order, and each menu key of the result holds the
    concatenation, in input order, of the items the inputs have under that
    key. A property of the result is present exactly when some input has it,
    and so is a menu key. *)
Theorem mergeContributions_spec :
  mergeContributions [] = emptyContributions
  ∧ (∀ c, mergeContributions [c] = c)
  ∧ (∀ cs : list Contributions,
       commandsOf (mergeContributions cs) = concat (commandsOf <$> cs)
       ∧ (is_Some (commands (mergeContributions cs))
          ↔ ∃ c, c ∈ cs ∧ is_Some (commands c))
       ∧ (is_Some (menus (mergeContributions cs))
          ↔ ∃ c, c ∈ cs ∧ is_Some (menus c))
       ∧ ∀ menu,
           menuItemsOf (mergeContributions cs) menu
           = concat ((λ c, menuItemsOf c menu) <$> cs)
           ∧ (hasMenu (mergeContributions cs) menu
              ↔ ∃ c, c ∈ cs ∧ hasMenu c menu)).
Proof.
  split_and!; [done|done|]. intros cs. split_and!.
  - apply commandsOf_mergeContributions.
  - apply commands_mergeContributions_is_Some.
  - apply menus_mergeContributions_is_Some.
  - intros menu. split.
    + apply menuItemsOf_mergeContributions.
    + apply hasMenu_mergeContributions.
Qed.

Lemma mergeContributions_insert_empty (cs1 cs2 : list Contributions) :
  mergeContributions (cs1 ++ emptyContributions :: cs2)
  = mergeContributions (cs1 ++ cs2).
Proof.
  rewrite !mergeContributions_app, mergeContributions_cons.
  by rewrite mergeStep_empty_l.
Qed.

Lemma mergeContributions_groups (groups : list (list Contributions)) :
  mergeContributions (mergeContributions <$> groups)
  = mergeContributions (concat groups).
Proof.
  induction groups as [|g groups IH]; [done|].
  rewrite fmap_cons, mergeContributions_cons, IH. simpl.
  by rewrite mergeContributions_app.
Qed.

(** C6. The empty contributions are neutral for the merge at every position
    of the list; merging consecutive groups and then the results of the
    groups gives the merge of the whole list; and the merge is not
    commutative. *)
Theorem mergeContributions_monoid :
  (∀ cs1 cs2 : list Contributions,
     mergeContributions (cs1 ++ emptyContributions :: cs2)
     = mergeContributions (cs1 ++ cs2))
  ∧ (∀ groups : list (list Contributions),
       mergeContributions (mergeContributions <$> groups)
       = mergeContributions (concat groups))
  ∧ (∃ a b : Contributions,
       mergeContributions [a; b] ≠ mergeContributions [b; a]).
Proof.
  split_and!.
  - apply mergeContributions_insert_empty.
  - apply mergeContributions_groups.
  - exists {| commands := Some [mkCommand "a" None None None None None];
              menus := None |},
           {| commands := Some [mkCommand "b" None None None None None];
              menus := None |}.
    intros [=].
Qed.

(** ** The monad of logged, throwing computations *)

Section monad.
Context {A B : Type}.
Implicit Types (m : M A) (f : A → M B).

Lemma outcomeOf_bind m f :
  outcomeOf (m ≫= f) = outcomeOf m ≫= (λ a, outcomeOf (f a)).
Proof.
  destruct m as [log [a|err]]; unfold mbind, M_bind, outcomeOf; simpl; [|done].
  by destruct (f a).
Qed.

Lemma logOf_bind m f :
  logOf (m ≫= f)
  = logOf m ++ match outcomeOf m with
               | Returned a => logOf (f a)
               | Thrown _ => []
               end.
Proof.
  destruct m as [log [a|err]]; unfold mbind, M_bind, logOf; simpl.
  - by destruct (f a).
  - by rewrite app_nil_r.
Qed.

Lemma elem_of_logOf_bind m f ev :
  ev ∈ logOf (m ≫= f) →
  ev ∈ logOf m ∨ ∃ a, outcomeOf m = Returned a ∧ ev ∈ logOf (f a).
Proof.
  rewrite logOf_bind, elem_of_app. intros [?|Hin]; [by left|].
  destruct (outcomeOf m) as [a|]; [eauto|by apply elem_of_nil in Hin].
Qed.

Lemma bind_thrown m f err :
  outcomeOf m = Thrown err → outcomeOf (m ≫= f) = Thrown err.
Proof. intros Hm. by rewrite outcomeOf_bind, Hm. Qed.

Lemma bind_returned m f a :
  outcomeOf m = Returned a → outcomeOf (m ≫= f) = outcomeOf (f a).
Proof. intros Hm. by rewrite outcomeOf_bind, Hm. Qed.
End monad.

Lemma elem_of_concat {A} (x : A) (ls : list (list A)) :
  x ∈ concat ls ↔ ∃ l, l ∈ ls ∧ x ∈ l.
Proof.
  induction ls as [|l ls IH]; simpl.
  - split; [by intros ?%elem_of_nil|by intros (? & ?%elem_of_nil & _)].
  - rewrite elem_of_app, IH. setoid_rewrite elem_of_cons. naive_solver.
Qed.

Lemma M_eq {A} (m : M A) : m = (logOf m, outcomeOf m).
Proof. by destruct m. Qed.

Lemma logOf_ret {A} (a : A) : logOf (mret a : M A) = [].
Proof. done. Qed.

Lemma outcomeOf_ret {A} (a : A) : outcomeOf (mret a : M A) = Returned a.
Proof. done. Qed.

(** A loop returns when each iteration does, and throws as soon as one
    does. *)
Lemma forOf_cons_outcome {A B} (f : B → A → M B) acc x (l : list A) :
  outcomeOf (forOf f acc (x :: l))
  = outcomeOf (f acc x) ≫= (λ acc', outcomeOf (forOf f acc' l)).
Proof. simpl. by rewrite outcomeOf_bind. Qed.

Lemma forOf_cons_log {A B} (f : B → A → M B) acc x (l : list A) ev :
  ev ∈ logOf (forOf f acc (x :: l)) →
  ev ∈ logOf (f acc x) ∨ ∃ acc', ev ∈ logOf (forOf f acc' l).
Proof. simpl. intros [?|(acc' & _ & ?)]%elem_of_logOf_bind; eauto. Qed.

(** ** contextFilter and filterContributions *)

Section filter.
Context `{Collaborators}.
Implicit Types (context : Context) (item : MenuItemContribution).
Implicit Types (items keep : list MenuItemContribution).
Implicit Types (evaluateExpr : string → MutableContext → Outcome JsValue).
Implicit Types (m acc : MenuContributions).

Lemma contextFilterStep_outcome context evaluateExpr keep item :
  outcomeOf (contextFilterStep context evaluateExpr keep item)
  = if whenThrows context evaluateExpr item
    then match when item with
         | Some w => Thrown (match evaluateExpr w (createChildContext context) with
                             | Thrown err => err
                             | Returned _ => ExpressionError ""
                             end)
         | None => Returned keep
         end
    else Returned (if shown context evaluateExpr item
                   then keep ++ [item] else keep).
Proof.
  unfold contextFilterStep, whenThrows, shown, whenOf, MenuItemContribution_when.
  destruct (when item) as [w|]; [|done].
  rewrite outcomeOf_bind. unfold callEvaluate, outcomeOf at 1. simpl.
  destruct (evaluateExpr w _) as [v|err]; simpl; [|done].
  by destruct (truthy v).
Qed.

Lemma contextFilterStep_log context evaluateExpr keep item ev :
  ev ∈ logOf (contextFilterStep context evaluateExpr keep item) →
  ∃ w, when item = Some w ∧ ev = CallEvaluate w.
Proof.
  unfold contextFilterStep, whenOf, MenuItemContribution_when.
  destruct (when item) as [w|]; [|by intros ?%elem_of_nil].
  rewrite logOf_bind. unfold callEvaluate, outcomeOf, logOf at 1. simpl.
  intros [->|Hin]%elem_of_cons; [eauto|].
  destruct (evaluateExpr w _) as [v|]; [|by apply elem_of_nil in Hin].
  destruct (negb (truthy v)); by apply elem_of_nil in Hin.
Qed.

Lemma contextFilter_loop_returns context evaluateExpr keep items :
  Forall (λ item, whenThrows context evaluateExpr item = false) items →
  outcomeOf (forOf (contextFilterStep context evaluateExpr) keep items)
  = Returned (keep ++ filter (λ item, shown context evaluateExpr item) items).
Proof.
  intros Hall. revert keep.
  induction Hall as [|item items Hitem _ IH]; intros keep.
  - by rewrite app_nil_r.
  - rewrite forOf_cons_outcome, contextFilterStep_outcome, Hitem. simpl.
    rewrite IH, filter_cons.
    destruct (shown context evaluateExpr item) eqn:Es.
    + rewrite decide_True by done. by rewrite <-(assoc_L (++)).
    + rewrite decide_False; [done|by intros []].
Qed.

Lemma contextFilter_loop_throws context evaluateExpr keep items :
  Exists (λ item, whenThrows context evaluateExpr item = true) items →
  ∃ err,
    outcomeOf (forOf (contextFilterStep context evaluateExpr) keep items)
    = Thrown err.
Proof.
  intros Hex. revert keep.
  induction Hex as [item items Hitem|item items _ IH]; intros keep;
    rewrite forOf_cons_outcome, contextFilterStep_outcome.
  - rewrite Hitem. unfold whenThrows in Hitem.
    destruct (when item); [eauto|done].
  - destruct (whenThrows context evaluateExpr item) eqn:Et.
    + unfold whenThrows in Et. destruct (when item); [eauto|done].
    + apply IH.
Qed.

Lemma contextFilter_loop_log context evaluateExpr keep items ev :
  ev ∈ logOf (forOf (contextFilterStep context evaluateExpr) keep items) →
  ∃ item w, item ∈ items ∧ when item = Some w ∧ ev = CallEvaluate w.
Proof.
  revert keep. induction items as [|item items IH]; intros keep.
  - by intros ?%elem_of_nil.
  - intros [Hin|[keep' Hin]]%forOf_cons_log.
    + apply contextFilterStep_log in Hin as (w & ? & ?).
      exists item, w. by rewrite elem_of_cons; eauto.
    + apply IH in Hin as (item' & w & ? & ? & ?).
      exists item', w. by rewrite elem_of_cons; eauto.
Qed.

(** [contextFilter] keeps the items that are shown, in their order. *)
Lemma contextFilter_returns context evaluateExpr items :
  Forall (λ item, whenThrows context evaluateExpr item = false) items →
  outcomeOf (contextFilter context items evaluateExpr)
  = Returned (filter (λ item, shown context evaluateExpr item) items).
Proof. apply (contextFilter_loop_returns _ _ []). Qed.

Lemma contextFilter_throws context evaluateExpr items :
  Exists (λ item, whenThrows context evaluateExpr item = true) items →
  ∃ err, outcomeOf (contextFilter context items evaluateExpr) = Thrown err.
Proof. apply contextFilter_loop_throws. Qed.

Lemma filterMenu_outcome context evaluateExpr acc menu items :
  outcomeOf (filterMenu context evaluateExpr acc (menu, items))
  = (λ kept, <[menu := kept]> acc)
    <$> outcomeOf (contextFilter context items evaluateExpr).
Proof.
  unfold filterMenu. rewrite outcomeOf_bind.
  by destruct (outcomeOf (contextFilter _ _ _)).
Qed.

Lemma filterMenu_log context evaluateExpr acc menu items ev :
  ev ∈ logOf (filterMenu context evaluateExpr acc (menu, items)) →
  ∃ item w, item ∈ items ∧ when item = Some w ∧ ev = CallEvaluate w.
Proof.
  unfold filterMenu.
  intros [Hin|(kept & _ & Hin)]%elem_of_logOf_bind.
  - by apply contextFilter_loop_log in Hin.
  - by apply elem_of_nil in Hin.
Qed.

(** The map built by the loop of [filterContributions] when no [when]
    throws. *)
Lemma filterMenus_loop_returns context evaluateExpr acc
    (l : list (string * list MenuItemContribution)) :
  Forall (λ kv, Forall (λ item, whenThrows context evaluateExpr item = false)
                  kv.2) l →
  outcomeOf (forOf (filterMenu context evaluateExpr) acc l)
  = Returned
      (foldl (λ acc kv,
                <[kv.1 := filter (λ item, shown context evaluateExpr item) kv.2]> acc)
         acc l).
Proof.
  intros Hall. revert acc.
  induction Hall as [|[menu items] l Hitems _ IH]; intros acc; [done|].
  rewrite forOf_cons_outcome, filterMenu_outcome.
  rewrite contextFilter_returns by done. simpl. apply IH.
Qed.

Lemma filterMenus_loop_throws context evaluateExpr acc
    (l : list (string * list MenuItemContribution)) :
  Exists (λ kv, Exists (λ item, whenThrows context evaluateExpr item = true)
                  kv.2) l →
  ∃ err, outcomeOf (forOf (filterMenu context evaluateExpr) acc l) = Thrown err.
Proof.
  intros Hex. revert acc.
  induction Hex as [[menu items] l Hitems|[menu items] l _ IH]; intros acc;
    rewrite forOf_cons_outcome, filterMenu_outcome.
  - simpl in Hitems.
    apply (contextFilter_throws context evaluateExpr) in Hitems as [err ->].
    by exists err.
  - destruct (outcomeOf (contextFilter _ _ _)) as [kept|err]; simpl; [|eauto].
    apply IH.
Qed.

Lemma filterMenus_loop_log context evaluateExpr acc
    (l : list (string * list MenuItemContribution)) ev :
  ev ∈ logOf (forOf (filterMenu context evaluateExpr) acc l) →
  ∃ menu items item w,
    (menu, items) ∈ l ∧ item ∈ items ∧ when item = Some w
    ∧ ev = CallEvaluate w.
Proof.
  revert acc. induction l as [|[menu items] l IH]; intros acc.
  - by intros ?%elem_of_nil.
  - intros [Hin|[acc' Hin]]%forOf_cons_log.
    + apply filterMenu_log in Hin as (item & w & ? & ? & ?).
      exists menu, items, item, w. by rewrite elem_of_cons; eauto.
    + apply IH in Hin as (menu' & items' & item & w & ? & ? & ? & ?).
      exists menu', items', item, w. by rewrite elem_of_cons; eauto.
Qed.

Lemma foldl_insert_lookup {V W} (f : V → W) (init : gmap string W)
    (l : list (string * V)) k :
  NoDup l.*1 →
  foldl (λ a kv, <[kv.1 := f kv.2]> a) init l !! k
  = match (list_to_map l : gmap string V) !! k with
    | Some v => Some (f v)
    | None => init !! k
    end.
Proof.
  revert init. induction l as [|[k0 v0] l IH]; intros init Hnd; simpl.
  - by rewrite lookup_empty.
  - apply NoDup_cons in Hnd as [Hnotin Hnd]. rewrite IH by done.
    destruct (decide (k0 = k)) as [->|Hne].
    + rewrite !lookup_insert_eq.
      by rewrite (not_elem_of_list_to_map_1 (M:=gmap string) l k Hnotin).
    + by rewrite !lookup_insert_ne.
Qed.

Lemma foldl_insert_fmap {V W} (f : V → W) (values : gmap string V) :
  foldl (λ a kv, <[kv.1 := f kv.2]> a) ∅ (map_to_list values) = f <$> values.
Proof.
  apply map_eq; intros k.
  rewrite foldl_insert_lookup by apply NoDup_fst_map_to_list.
  rewrite list_to_map_to_list, lookup_fmap, lookup_empty.
  by destruct (values !! k).
Qed.

(** Without menus, [filterContributions] returns its argument and calls
    nothing. *)
Lemma filterContributions_no_menus context c evaluateExpr :
  menus c = None → filterContributions context c evaluateExpr = mret c.
Proof. unfold filterContributions. by intros ->. Qed.

Lemma filterContributions_returns context c evaluateExpr m :
  menus c = Some m →
  menusEvaluate context evaluateExpr m →
  outcomeOf (filterContributions context c evaluateExpr)
  = Returned
      {| commands := commands c;
         menus := Some (filter (λ item, shown context evaluateExpr item) <$> m) |}.
Proof.
  intros Hm Hall. unfold filterContributions. rewrite Hm, outcomeOf_bind.
  rewrite filterMenus_loop_returns.
  - simpl. by rewrite (foldl_insert_fmap (filter _)).
  - apply map_Forall_to_list in Hall.
    eapply Forall_impl; [exact Hall|]. by intros [menu items].
Qed.

Lemma filterContributions_throws context c evaluateExpr m :
  menus c = Some m →
  ¬ menusEvaluate context evaluateExpr m →
  ∃ err, outcomeOf (filterContributions context c evaluateExpr) = Thrown err.
Proof.
  intros Hm Hnot. unfold filterContributions. rewrite Hm.
  destruct (filterMenus_loop_throws context evaluateExpr ∅ (map_to_list m))
    as [err Herr].
  - unfold menusEvaluate in Hnot. rewrite map_Forall_to_list in Hnot.
    apply not_Forall_Exists in Hnot; [|apply _].
    eapply Exists_impl; [exact Hnot|]. intros [menu items]; simpl.
    intros Hitems. apply not_Forall_Exists in Hitems; [|apply _].
    eapply Exists_impl; [exact Hitems|]. simpl.
    intros item. by destruct (whenThrows _ _ item).
  - exists err. by rewrite outcomeOf_bind, Herr.
Qed.

Lemma filterContributions_log context c evaluateExpr ev :
  ev ∈ logOf (filterContributions context c evaluateExpr) →
  ∃ m menu items item w,
    menus c = Some m ∧ m !! menu = Some items ∧ item ∈ items
    ∧ when item = Some w ∧ ev = CallEvaluate w.
Proof.
  unfold filterContributions. destruct (menus c) as [m|].
  - intros [Hin|(? & _ & Hin)]%elem_of_logOf_bind.
    + apply filterMenus_loop_log in Hin
        as (menu & items & item & w & Hm%elem_of_map_to_list & ? & ? & ?).
      by exists m, menu, items, item, w.
    + by apply elem_of_nil in Hin.
  - by intros ?%elem_of_nil.
Qed.
End filter.

(** ** evaluateContributions *)

Section evaluate.
Context `{Collaborators}.
Implicit Types (context : Context) (childContext : MutableContext).
Implicit Types (te : TemplateEvaluator) (field : option string).
Implicit Types (c : CommandContribution) (a : ActionItem).

(** The calls made for one field are those expected, whether the template
    evaluator returns or throws. *)
Lemma interpolateField_log te childContext field :
  logOf (interpolateField te childContext field) = expectedCalls te field.
Proof.
  destruct field as [s|]; [|done].
  unfold interpolateField, expectedCalls, callNeedsEvaluation,
    callEvaluateTemplate, logOf, mbind, M_bind, mret, M_ret.
  destruct (truthy_string s); [|done]. simpl.
  destruct (te_needsEvaluation te s); [|done]. simpl.
  by destruct (te_evaluateTemplate te s childContext).
Qed.

(** The key assigned to [changed] for one field, against the value of the
    field after interpolation. *)
Lemma interpolateField_cases te childContext field :
  (∃ v, outcomeOf (interpolateField te childContext field) = Returned (Some v)
        ∧ fieldAfter te childContext field = Returned (Some v)
        ∧ interpolated te field = true)
  ∨ (outcomeOf (interpolateField te childContext field) = Returned None
     ∧ fieldAfter te childContext field = Returned field
     ∧ interpolated te field = false)
  ∨ (∃ err, outcomeOf (interpolateField te childContext field) = Thrown err
            ∧ fieldAfter te childContext field = Thrown err).
Proof.
  destruct field as [s|]; [|by right; left].
  unfold interpolateField, fieldAfter, interpolated, callNeedsEvaluation,
    callEvaluateTemplate, outcomeOf, mbind, M_bind, mret, M_ret.
  destruct (truthy_string s); simpl; [|by right; left].
  destruct (te_needsEvaluation te s); simpl; [|by right; left].
  destruct (te_evaluateTemplate te s childContext) as [v|err]; simpl.
  - left. by exists v.
  - right; right. by exists err.
Qed.

(** One field of the sequence: split on the three cases of
    [interpolateField_cases], closing the case of a throw. *)
Local Ltac field_step te childContext field :=
  rewrite outcomeOf_bind;
  destruct (interpolateField_cases te childContext field)
    as [(? & -> & -> & ?)|[(-> & -> & ?)|(? & -> & ->)]];
  simpl; [| |by right; right; eauto].

Local Ltac use_interpolated :=
  repeat match goal with
    | Hi : interpolated _ _ = _ |- _ => rewrite Hi; clear Hi
    end.

Lemma interpolateActionItem_cases te childContext (ao : option ActionItem) :
  (∃ a', outcomeOf (interpolateActionItem te childContext ao) = Returned (Some a')
         ∧ actionItemAfter te childContext ao = Returned (Some a')
         ∧ from_option (interpolatedActionItem te) false ao = true)
  ∨ (outcomeOf (interpolateActionItem te childContext ao) = Returned None
     ∧ actionItemAfter te childContext ao = Returned ao
     ∧ from_option (interpolatedActionItem te) false ao = false)
  ∨ (∃ err, outcomeOf (interpolateActionItem te childContext ao) = Thrown err
            ∧ actionItemAfter te childContext ao = Thrown err).
Proof.
  destruct ao as [a|]; [|by right; left].
  unfold interpolateActionItem, actionItemAfter, interpolatedActionItem.
  simpl from_option.
  field_step te childContext (ai_label a);
    (field_step te childContext (ai_description a);
     (field_step te childContext (ai_group a);
      (field_step te childContext (ai_iconURL a);
       (field_step te childContext (ai_iconDescription a);
        use_interpolated; simpl;
        first [ left; eexists; split_and!; reflexivity
              | right; left; split_and!; try reflexivity;
                by destruct a ])))).
Qed.

Local Ltac field_step_eq te childContext field :=
  rewrite outcomeOf_bind;
  destruct (interpolateField_cases te childContext field)
    as [(? & -> & -> & ?)|[(-> & -> & ?)|(? & -> & ->)]];
  simpl; [| |done].

(** The object pushed for a command is the command after interpolation,
    field by field, and it is a new object exactly when a field is
    interpolated. *)
Lemma evaluateCommand_outcome context te c :
  outcomeOf (evaluateCommand context te c) = commandAfter context te c.
Proof.
  unfold evaluateCommand, commandAfter, changedOf, interpolatedCommand.
  set (childContext := createChildContext context).
  rewrite outcomeOf_bind.
  field_step_eq te childContext (title c);
    (field_step_eq te childContext (category c);
     (field_step_eq te childContext (description c);
      (field_step_eq te childContext (iconURL c);
       (rewrite outcomeOf_bind;
        destruct (interpolateActionItem_cases te childContext (actionItem c))
          as [(? & -> & -> & Ha)|[(-> & -> & Ha)|(? & -> & ->)]];
        simpl; [| |done];
        use_interpolated; rewrite Ha; reflexivity)))).
Qed.

Lemma callsWithin_ret {A} (a : A) : callsWithin (mret a : M A) [].
Proof. split; [done|]. by intros _ _. Qed.

Lemma callsWithin_bind {A B} (m : M A) (f : A → M B) l1 l2 :
  callsWithin m l1 → (∀ x, callsWithin (f x) l2) →
  callsWithin (m ≫= f) (l1 ++ l2).
Proof.
  intros [Hpre Hret] Hf. unfold callsWithin.
  rewrite logOf_bind, outcomeOf_bind.
  destruct (outcomeOf m) as [a|err] eqn:Em; simpl.
  - rewrite (Hret a eq_refl). destruct (Hf a) as [Hpre' Hret']. split.
    + by apply prefix_app.
    + intros b Hb. by rewrite (Hret' b Hb).
  - split; [|done]. rewrite app_nil_r. by apply prefix_app_r.
Qed.

Lemma callsWithin_elem_of {A} (m : M A) l ev :
  callsWithin m l → ev ∈ logOf m → ev ∈ l.
Proof. intros [[k ->] _] Hin. apply elem_of_app. by left. Qed.

Lemma interpolateField_calls te childContext field :
  callsWithin (interpolateField te childContext field)
    (expectedCalls te field).
Proof. split; [|intros _ _]; by rewrite interpolateField_log. Qed.

Lemma interpolateActionItem_calls te childContext (ao : option ActionItem) :
  callsWithin (interpolateActionItem te childContext ao)
    (concat (expectedCalls te
             <$> from_option (λ a, [ai_label a; ai_description a; ai_group a;
                                    ai_iconURL a; ai_iconDescription a])
                   [] ao)).
Proof.
  destruct ao as [a|]; [|apply callsWithin_ret].
  unfold interpolateActionItem. simpl.
  repeat (apply callsWithin_bind; [apply interpolateField_calls|intros ?]).
  destruct (hasKeysActionItem _); apply callsWithin_ret.
Qed.

(** The calls made for a command are those of its nine display fields, in
    order. *)
Lemma evaluateCommand_calls context te c :
  callsWithin (evaluateCommand context te c) (expectedCallsOfCommand te c).
Proof.
  unfold evaluateCommand, changedOf, expectedCallsOfCommand, displaySlots.
  rewrite <-(app_nil_r (concat _)).
  apply callsWithin_bind; [|intros ?; apply callsWithin_ret].
  rewrite fmap_app, concat_app. simpl concat. rewrite <-!(assoc_L (++)).
  do 4 (apply callsWithin_bind; [apply interpolateField_calls|intros ?]).
  rewrite app_nil_l, <-(app_nil_r (concat _)).
  apply callsWithin_bind; [apply interpolateActionItem_calls|intros ?].
  apply callsWithin_ret.
Qed.

Lemma elem_of_expectedCalls te field ev :
  ev ∈ expectedCalls te field →
  ∃ s, field = Some s ∧ truthy_string s = true
       ∧ (ev = CallNeedsEvaluation s
          ∨ ev = CallEvaluateTemplate s ∧ te_needsEvaluation te s = true).
Proof.
  destruct field as [s|]; simpl; [|by intros ?%elem_of_nil].
  destruct (truthy_string s) eqn:Et; [|by intros ?%elem_of_nil].
  intros [->|Hin]%elem_of_cons; [exists s; by auto|].
  destruct (te_needsEvaluation te s) eqn:En; [|by apply elem_of_nil in Hin].
  apply list_elem_of_singleton in Hin as ->. exists s; by auto.
Qed.

Lemma elem_of_expectedCallsOfCommand te c ev :
  ev ∈ expectedCallsOfCommand te c →
  ∃ s, s ∈ displayFields c ∧ truthy_string s = true
       ∧ (ev = CallNeedsEvaluation s
          ∨ ev = CallEvaluateTemplate s ∧ te_needsEvaluation te s = true).
Proof.
  unfold expectedCallsOfCommand, displayFields.
  intros (calls & (field & -> & Hfield)%list_elem_of_fmap & Hin)%elem_of_concat.
  apply elem_of_expectedCalls in Hin as (s & -> & ? & ?).
  exists s. split_and!; [|done..].
  apply list_elem_of_omap. by exists (Some s).
Qed.

(** The loop over the commands. *)
Lemma evaluateCommands_loop_outcome context te
    (acc : list EvaluatedCommand) (cs : list CommandContribution) :
  outcomeOf (forOf (λ evaluatedCommands c,
                      e ← evaluateCommand context te c;
                      mret (evaluatedCommands ++ [e])) acc cs)
  = (acc ++.) <$> mapM (commandAfter context te) cs.
Proof.
  revert acc. induction cs as [|c cs IH]; intros acc.
  - simpl. by rewrite app_nil_r.
  - rewrite forOf_cons_outcome, outcomeOf_bind, evaluateCommand_outcome.
    simpl. destruct (commandAfter context te c) as [e|err]; simpl; [|done].
    rewrite IH. destruct (mapM _ cs); simpl; [|done].
    by rewrite <-(assoc_L (++)).
Qed.

Lemma evaluateCommands_outcome context te (cs : list CommandContribution) :
  outcomeOf (evaluateCommands context te cs)
  = mapM (commandAfter context te) cs.
Proof.
  unfold evaluateCommands. rewrite evaluateCommands_loop_outcome.
  by destruct (mapM _ cs).
Qed.

Lemma evaluateCommands_loop_calls context te
    (acc : list EvaluatedCommand) (cs : list CommandContribution) :
  callsWithin (forOf (λ evaluatedCommands c,
                        e ← evaluateCommand context te c;
                        mret (evaluatedCommands ++ [e])) acc cs)
    (concat (expectedCallsOfCommand te <$> cs)).
Proof.
  revert acc. induction cs as [|c cs IH]; intros acc.
  - apply callsWithin_ret.
  - simpl. apply callsWithin_bind; [|intros ?; apply IH].
    rewrite <-(app_nil_r (expectedCallsOfCommand te c)).
    apply callsWithin_bind; [apply evaluateCommand_calls|].
    intros ?. apply callsWithin_ret.
Qed.

Lemma evaluateContributions_outcome context contributions te :
  outcomeOf (evaluateContributions context contributions te)
  = match commands contributions with
    | Some cs =>
        (λ es, {| commands := Some (objectValue <$> es);
                  menus := menus contributions |})
        <$> mapM (commandAfter context te) cs
    | None => Returned contributions
    end.
Proof.
  unfold evaluateContributions.
  destruct contributions as [[[|c cs]|] m]; simpl commands; try done.
  cbv beta iota. rewrite outcomeOf_bind, evaluateCommands_outcome.
  by destruct (mapM _ _).
Qed.

Lemma evaluateContributions_calls context contributions te :
  callsWithin (evaluateContributions context contributions te)
    (concat (expectedCallsOfCommand te <$> commandsOf contributions)).
Proof.
  unfold evaluateContributions, commandsOf.
  destruct (commands contributions) as [[|c cs]|]; simpl default;
    try apply callsWithin_ret.
  rewrite <-(app_nil_r (concat _)).
  apply callsWithin_bind; [apply evaluateCommands_loop_calls|].
  intros ?. apply callsWithin_ret.
Qed.

(** Interpolation leaves the menus as they are. *)
Lemma evaluateContributions_menus context contributions te
    (result : Contributions) :
  outcomeOf (evaluateContributions context contributions te) = Returned result →
  menus result = menus contributions.
Proof.
  rewrite evaluateContributions_outcome.
  destruct (commands contributions) as [cs|]; [|by intros [= <-]].
  destruct (mapM _ cs); simpl; [by intros [= <-]|done].
Qed.
End evaluate.

(** ** The evaluation of one entry *)

Section entry.
Context `{Collaborators}.
Implicit Types (context : Context) (contributions : Contributions).


(** What the [try] block yields when nothing throws: the commands
    interpolated and the menus filtered. *)
Lemma tryEvaluate_menus context contributions (result : Contributions) :
  outcomeOf (tryEvaluate context contributions) = Returned result →
  menus result = shownMenus context evaluate <$> menus contributions.
Proof.
  unfold tryEvaluate. rewrite outcomeOf_bind.
  destruct (outcomeOf (filterContributions _ _ _)) as [filtered|] eqn:Ef;
    simpl; [|done].
  intros ->%evaluateContributions_menus.
  destruct (menus contributions) as [m|] eqn:Em.
  - destruct (decide (menusEvaluate context evaluate m)) as [Hall|Hnot].
    + rewrite (filterContributions_returns _ _ _ m Em Hall) in Ef.
      by injection Ef as <-.
    + destruct (filterContributions_throws _ _ _ m Em Hnot) as [err Herr].
      congruence.
  - rewrite filterContributions_no_menus in Ef by done.
    injection Ef as <-. by rewrite Em.
Qed.

Lemma evaluateEntry_returned context contributions result :
  outcomeOf (tryEvaluate context contributions) = Returned result →
  evaluateEntry context contributions
  = (logOf (tryEvaluate context contributions), result).
Proof.
  unfold evaluateEntry, outcomeOf, logOf.
  destruct (tryEvaluate context contributions) as [log o]; simpl.
  by intros ->.
Qed.

(** The [catch] block: the failure goes to the console and the entry
    yields [{}]. *)
Lemma evaluateEntry_thrown context contributions err :
  outcomeOf (tryEvaluate context contributions) = Thrown err →
  evaluateEntry context contributions
  = (logOf (tryEvaluate context contributions)
     ++ [ConsoleError contributions err], emptyContributions).
Proof.
  unfold evaluateEntry, outcomeOf, logOf.
  destruct (tryEvaluate context contributions) as [log o]; simpl.
  by intros ->.
Qed.


End entry.


(** ** Interpolation of the display fields *)

Section interpolation.
Context `{Collaborators}.
Implicit Types (context : Context) (childContext : MutableContext).
Implicit Types (te : TemplateEvaluator) (field : option string).

Lemma interpolateField_empty te childContext field :
  emptyField field → interpolateField te childContext field = mret None.
Proof. by intros [->| ->]. Qed.

Lemma fieldAfter_keptIfEmpty te childContext field after :
  fieldAfter te childContext field = Returned after →
  keptIfEmpty field after.
Proof. intros Hafter [->| ->]; by injection Hafter as <-. Qed.

Lemma keptIfEmpty_refl field : keptIfEmpty field field.
Proof. by intros _. Qed.

Lemma actionItemAfter_keptIfEmpty te childContext
    (before after : option ActionItem) :
  actionItemAfter te childContext before = Returned after →
  keptIfEmptyActionItem before after.
Proof.
  destruct before as [a|]; simpl; [|by intros [= <-]].
  destruct (fieldAfter te childContext (ai_label a)) eqn:E1; simpl; [|done].
  destruct (fieldAfter te childContext (ai_description a)) eqn:E2; simpl; [|done].
  destruct (fieldAfter te childContext (ai_group a)) eqn:E3; simpl; [|done].
  destruct (fieldAfter te childContext (ai_iconURL a)) eqn:E4; simpl; [|done].
  destruct (fieldAfter te childContext (ai_iconDescription a)) eqn:E5;
    simpl; [|done].
  intros [= <-]. eexists; split; [done|]. simpl.
  split_and!; by eapply fieldAfter_keptIfEmpty.
Qed.

Lemma keptIfEmptyCommand_refl c : keptIfEmptyCommand c c.
Proof.
  split_and!; try apply keptIfEmpty_refl.
  destruct (actionItem c) as [a|] eqn:Ea; simpl; rewrite ?Ea; [|done].
  exists a. split_and!; by try apply keptIfEmpty_refl.
Qed.

Lemma commandAfter_keptIfEmpty context te c e :
  commandAfter context te c = Returned e →
  keptIfEmptyCommand c (objectValue e).
Proof.
  unfold commandAfter.
  set (childContext := createChildContext context).
  destruct (fieldAfter te childContext (title c)) eqn:E1; simpl; [|done].
  destruct (fieldAfter te childContext (category c)) eqn:E2; simpl; [|done].
  destruct (fieldAfter te childContext (description c)) eqn:E3; simpl; [|done].
  destruct (fieldAfter te childContext (iconURL c)) eqn:E4; simpl; [|done].
  destruct (actionItemAfter te childContext (actionItem c)) eqn:E5;
    simpl; [|done].
  destruct (interpolatedCommand te c); intros [= <-]; simpl.
  - split_and!; simpl;
      first [by eapply fieldAfter_keptIfEmpty
            |by eapply actionItemAfter_keptIfEmpty].
  - apply keptIfEmptyCommand_refl.
Qed.

(** The evaluators are never called on the empty string. *)
Lemma evaluateCommand_no_call_on_empty context te c ev :
  ev ∈ logOf (evaluateCommand context te c) →
  ev ≠ CallNeedsEvaluation "" ∧ ev ≠ CallEvaluateTemplate "".
Proof.
  intros Hin.
  eapply callsWithin_elem_of in Hin; [|apply evaluateCommand_calls].
  apply elem_of_expectedCallsOfCommand in Hin as (s & _ & Hs & Hev).
  split; intros ->; destruct Hev as [[= <-]|[[= <-] _]]; done.
Qed.

Lemma evaluateCommand_template_calls context te c s :
  CallEvaluateTemplate s ∈ logOf (evaluateCommand context te c) →
  s ∈ displayFields c ∧ truthy_string s = true
  ∧ te_needsEvaluation te s = true.
Proof.
  intros Hin.
  eapply callsWithin_elem_of in Hin; [|apply evaluateCommand_calls].
  by apply elem_of_expectedCallsOfCommand
    in Hin as (s' & ? & ? & [?|[[= <-] ?]]).
Qed.
Lemma fieldAfter_not_interpolated te childContext field :
  interpolated te field = false →
  fieldAfter te childContext field = Returned field.
Proof. destruct field as [s|]; [|done]. unfold fieldAfter. by intros ->. Qed.

Lemma actionItemAfter_not_interpolated te childContext
    (ao : option ActionItem) :
  from_option (interpolatedActionItem te) false ao = false →
  actionItemAfter te childContext ao = Returned ao.
Proof.
  destruct ao as [a|]; [|done]. simpl. unfold interpolatedActionItem.
  intros [[[[H1 H2]%orb_false_elim H3]%orb_false_elim H4]%orb_false_elim H5]%orb_false_elim.
  rewrite !fieldAfter_not_interpolated by done. by destruct a.
Qed.

(** The fields of the object pushed, one by one. *)
Lemma commandAfter_fields context te c e :
  commandAfter context te c = Returned e →
  fieldAfter te (createChildContext context) (title c)
  = Returned (title (objectValue e))
  ∧ fieldAfter te (createChildContext context) (category c)
    = Returned (category (objectValue e))
  ∧ fieldAfter te (createChildContext context) (description c)
    = Returned (description (objectValue e))
  ∧ fieldAfter te (createChildContext context) (iconURL c)
    = Returned (iconURL (objectValue e))
  ∧ actionItemAfter te (createChildContext context) (actionItem c)
    = Returned (actionItem (objectValue e))
  ∧ command (objectValue e) = command c
  ∧ e = if interpolatedCommand te c
        then NewObject (objectValue e) else SameObject c.
Proof.
  unfold commandAfter.
  set (childContext := createChildContext context).
  destruct (interpolatedCommand te c) eqn:Ei.
  - destruct (fieldAfter te childContext (title c)); simpl; [|done].
    destruct (fieldAfter te childContext (category c)); simpl; [|done].
    destruct (fieldAfter te childContext (description c)); simpl; [|done].
    destruct (fieldAfter te childContext (iconURL c)); simpl; [|done].
    destruct (actionItemAfter te childContext (actionItem c)); simpl; [|done].
    by intros [= <-].
  - unfold interpolatedCommand in Ei.
    apply orb_false_elim in Ei as [[[[H1 H2]%orb_false_elim H3]%orb_false_elim
                                      H4]%orb_false_elim H5].
    rewrite !fieldAfter_not_interpolated, actionItemAfter_not_interpolated
      by done.
    by intros [= <-].
Qed.
End interpolation.

(** C4, as amended. For every command, context and template evaluator, the
    object pushed for the command is the command after interpolation: each
    display field (title, category, description, iconURL and, independently,
    each sub-field of the action item) is replaced by the result of the
    template evaluator on it and a child of the context exactly when the
    field is present, is not the empty string and [needsEvaluation] holds of
    it, and is left as it is otherwise; the object is a new one exactly when
    some field is interpolated, and the object of the input otherwise; the
    evaluation throws when a template evaluation does. The template evaluator
    is only called on fields of which [needsEvaluation] holds, and the
    commands of the contributions are evaluated one by one in this way. *)
Theorem evaluateContributions_spec `{Collaborators} (context : Context)
    (te : TemplateEvaluator) (c : CommandContribution)
    (contributions : Contributions) :
  outcomeOf (evaluateCommand context te c) = commandAfter context te c
  ∧ (∀ e, outcomeOf (evaluateCommand context te c) = Returned e →
       fieldAfter te (createChildContext context) (title c)
       = Returned (title (objectValue e))
       ∧ fieldAfter te (createChildContext context) (category c)
         = Returned (category (objectValue e))
       ∧ fieldAfter te (createChildContext context) (description c)
         = Returned (description (objectValue e))
       ∧ fieldAfter te (createChildContext context) (iconURL c)
         = Returned (iconURL (objectValue e))
       ∧ actionItemAfter te (createChildContext context) (actionItem c)
         = Returned (actionItem (objectValue e))
       ∧ command (objectValue e) = command c
       ∧ e = if interpolatedCommand te c
             then NewObject (objectValue e) else SameObject c)
  ∧ callsWithin (evaluateCommand context te c) (expectedCallsOfCommand te c)
  ∧ (∀ s, CallEvaluateTemplate s ∈ logOf (evaluateCommand context te c) →
       s ∈ displayFields c ∧ truthy_string s = true
       ∧ te_needsEvaluation te s = true)
  ∧ outcomeOf (evaluateContributions context contributions te)
    = match commands contributions with
      | Some cs =>
          (λ es, {| commands := Some (objectValue <$> es);
                    menus := menus contributions |})
          <$> mapM (commandAfter context te) cs
      | None => Returned contributions
      end.
Proof.
  split_and!.
  - apply evaluateCommand_outcome.
  - intros e. rewrite evaluateCommand_outcome. apply commandAfter_fields.
  - apply evaluateCommand_calls.
  - apply evaluateCommand_template_calls.
  - apply evaluateContributions_outcome.
Qed.

(** C4 as stated fails. First, [needsEvaluation] holds of the title of the
    command and the template evaluator would turn the title into another
    string, yet the command is pushed as it is and no evaluator is called,
    because the title is the empty string. Second, a command whose title is
    interpolated to the string it already was is pushed as a new object,
    although none of its fields has another value than before. *)
Lemma interpolation_guard_counterexample :
  let c := commandTitled "a" (Some "") in
  let c' := commandTitled "a" (Some "X") in
  (title c = Some ""
   ∧ te_needsEvaluation eagerEvaluator "" = true
   ∧ te_evaluateTemplate eagerEvaluator ""
       (@createChildContext exampleCollaborators exampleContext)
     = Returned "X"
   ∧ evaluateCommand exampleContext eagerEvaluator c
     = ([], Returned (SameObject c))
   ∧ title c ≠ Some "X")
  ∧ evaluateCommand exampleContext eagerEvaluator c'
    = ([CallNeedsEvaluation "X"; CallEvaluateTemplate "X"],
       Returned (NewObject c')).
Proof. by split_and!. Qed.

(** C10. A display field that is absent or the empty string assigns no key
    to [changed] and calls neither [needsEvaluation] nor the template
    evaluator, whatever [needsEvaluation] says of the empty string: the
    calls made for a command are those of its fields that are present and
    not empty, the evaluators are never called on the empty string, and in
    the object pushed every absent or empty field is as in the input. *)
Theorem empty_fields_skipped `{Collaborators} (context : Context)
    (te : TemplateEvaluator) (c : CommandContribution) :
  (∀ field, emptyField field →
     interpolateField te (createChildContext context) field = mret None
     ∧ expectedCalls te field = [])
  ∧ callsWithin (evaluateCommand context te c) (expectedCallsOfCommand te c)
  ∧ (∀ ev, ev ∈ logOf (evaluateCommand context te c) →
       ev ≠ CallNeedsEvaluation "" ∧ ev ≠ CallEvaluateTemplate "")
  ∧ match outcomeOf (evaluateCommand context te c) with
    | Returned e => keptIfEmptyCommand c (objectValue e)
    | Thrown _ => True
    end.
Proof.
  split_and!.
  - intros field Hempty. split; [by apply interpolateField_empty|].
    by destruct Hempty as [->| ->].
  - apply evaluateCommand_calls.
  - apply evaluateCommand_no_call_on_empty.
  - rewrite evaluateCommand_outcome.
    destruct (commandAfter context te c) eqn:Ec; [|done].
    by apply commandAfter_keptIfEmpty in Ec.
Qed.

(** ** The pipeline *)

Section pipeline.
Context `{Collaborators}.
Implicit Types (context : Context) (r : ContributionRegistry).
Implicit Types (entries : list ContributionsEntry) (e : ContributionsEntry).
Implicit Types (delivered : list Contributions) (v : Contributions).

Lemma evaluateEntries_evaluated context entries :
  (evaluateEntries context entries).2 = evaluated context <$> entries.
Proof.
  unfold evaluateEntries. simpl. by rewrite <-list_fmap_compose.
Qed.

Lemma evaluateEntries_log context entries :
  (evaluateEntries context entries).1
  = concat ((λ e, (evaluateEntry context (contributions e)).1) <$> entries).
Proof.
  unfold evaluateEntries. simpl. by rewrite <-list_fmap_compose.
Qed.

Lemma aggregate_eq context entries :
  aggregate context entries
  = ((evaluateEntries context entries).1,
     mergeContributions (evaluated context <$> entries)).
Proof.
  unfold aggregate. rewrite <-evaluateEntries_evaluated.
  by destruct (evaluateEntries context entries).
Qed.

Lemma commandsOf_evaluated context e :
  commandsOf (evaluated context e) = commandsContributed context e.
Proof.
  unfold evaluated, commandsContributed.
  destruct (outcomeOf (tryEvaluate context (contributions e))) eqn:Eo.
  - by rewrite (evaluateEntry_returned _ _ _ Eo).
  - by rewrite (evaluateEntry_thrown _ _ _ Eo).
Qed.

Lemma evaluated_thrown context e :
  evaluationThrows context e → evaluated context e = emptyContributions.
Proof.
  intros [err Herr]. unfold evaluated.
  by rewrite (evaluateEntry_thrown _ _ _ Herr).
Qed.

(** *** distinctUntilChanged *)

Lemma last_distinctUntilChanged delivered v :
  last (distinctUntilChanged isEqual delivered v) = Some v.
Proof.
  unfold distinctUntilChanged, isEqual.
  destruct (last delivered) as [previous|] eqn:El; [|by rewrite last_snoc].
  case_bool_decide; [by subst|by rewrite last_snoc].
Qed.

Lemma distinctUntilChanged_same delivered v :
  last delivered = Some v →
  distinctUntilChanged isEqual delivered v = delivered.
Proof.
  unfold distinctUntilChanged, isEqual. intros ->.
  by rewrite bool_decide_true.
Qed.

Lemma distinctUntilChanged_cases delivered v :
  distinctUntilChanged isEqual delivered v = delivered
  ∧ last delivered = Some v
  ∨ distinctUntilChanged isEqual delivered v = delivered ++ [v]
    ∧ last delivered ≠ Some v.
Proof.
  unfold distinctUntilChanged, isEqual.
  destruct (last delivered) as [previous|]; [|by right].
  case_bool_decide; [left|right]; split; congruence.
Qed.

Lemma length_distinctUntilChanged delivered v :
  length (distinctUntilChanged isEqual delivered v) ≤ S (length delivered).
Proof.
  destruct (distinctUntilChanged_cases delivered v) as [[-> _]|[-> _]];
    rewrite ?length_app; simpl; lia.
Qed.

Lemma noRepeats_distinctUntilChanged delivered v :
  noRepeats delivered →
  noRepeats (distinctUntilChanged isEqual delivered v).
Proof.
  intros Hno.
  destruct (distinctUntilChanged_cases delivered v) as [[-> _]|[-> Hne]];
    [done|].
  intros i a b Ha Hb.
  destruct (decide (S i < length delivered)) as [Hlt|Hge].
  - rewrite lookup_app_l in Ha, Hb by lia. by eapply Hno.
  - assert (S i = length delivered) as Hi.
    { apply lookup_lt_Some in Hb. rewrite length_app in Hb. simpl in Hb. lia. }
    rewrite lookup_app_l in Ha by lia.
    rewrite lookup_app_r, Hi, Nat.sub_diag in Hb by lia.
    injection Hb as <-. intros ->. apply Hne.
    rewrite last_lookup. by replace (pred (length delivered)) with i by lia.
Qed.

(** *** The steps of the registry *)

Lemma recompute_eq entries context r :
  recompute entries context r
  = {| _entries := _entries r; entriesEmitted := entriesEmitted r;
       latestContext := latestContext r;
       recomputations := S (recomputations r);
       published :=
         distinctUntilChanged isEqual (published r)
           (aggregate context entries).2;
       console := console r ++ (aggregate context entries).1 |}.
Proof. unfold recompute. by destruct (aggregate context entries). Qed.

Lemma next_eq (value : list ContributionsEntry) r :
  next value r
  = {| _entries := value; entriesEmitted := entriesEmitted r ++ [value];
       latestContext := latestContext r;
       recomputations :=
         match latestContext r with
         | Some _ => S (recomputations r)
         | None => recomputations r
         end;
       published :=
         match latestContext r with
         | Some context =>
             distinctUntilChanged isEqual (published r)
               (aggregate context value).2
         | None => published r
         end;
       console :=
         match latestContext r with
         | Some context => console r ++ (aggregate context value).1
         | None => console r
         end |}.
Proof.
  unfold next. destruct (latestContext r) as [context|] eqn:Ec; [|done].
  by rewrite recompute_eq.
Qed.

Lemma contextNext_eq context r :
  contextNext context r
  = {| _entries := _entries r; entriesEmitted := entriesEmitted r;
       latestContext := Some context;
       recomputations := S (recomputations r);
       published :=
         distinctUntilChanged isEqual (published r)
           (aggregate context (_entries r)).2;
       console := console r ++ (aggregate context (_entries r)).1 |}.
Proof. unfold contextNext. by rewrite recompute_eq. Qed.

(** Every action makes the registry recompute at most once, and what it
    publishes goes through [distinctUntilChanged]. *)
Lemma published_perform r (a : Action) :
  published (perform r a)
  = match computedBy r a with
    | Some merged => distinctUntilChanged isEqual (published r) merged
    | None => published r
    end.
Proof.
  unfold computedBy.
  destruct a; simpl; unfold unsubscribe; rewrite ?next_eq, ?contextNext_eq;
    simpl; by destruct (latestContext r).
Qed.

Lemma entries_perform r (a : Action) :
  _entries (perform r a)
  = filter (λ e, negb (removes a e)) (_entries r)
    ++ from_option (λ e, [e]) [] (introduced a).
Proof.
  destruct a; simpl; unfold unsubscribe; rewrite ?next_eq, ?contextNext_eq;
    simpl; rewrite ?app_nil_r; try done.
  - f_equal. induction (_entries r); [done|]. rewrite filter_cons_True; by f_equal.
  - induction (_entries r); [done|]. rewrite filter_cons_True; by f_equal.
Qed.

Lemma latestContext_perform r (a : Action) :
  latestContext (perform r a)
  = match a with
    | ContextChange context => Some context
    | _ => latestContext r
    end.
Proof.
  destruct a; simpl; unfold unsubscribe; by rewrite ?next_eq, ?contextNext_eq.
Qed.
End pipeline.

(** ** The entry store over a sequence of actions *)

Section store.
Context `{Collaborators}.
Implicit Types (context : Context) (r : ContributionRegistry).
Implicit Types (actions : list Action) (e : ContributionsEntry).

Lemma entries_foldl_perform actions r :
  _entries (foldl perform r actions)
  = filter (λ e, survives actions e) (_entries r)
    ++ currentlyRegistered actions.
Proof.
  revert r. induction actions as [|a rest IH]; intros r; simpl.
  - rewrite app_nil_r. induction (_entries r); [done|].
    rewrite filter_cons_True; by f_equal.
  - rewrite IH, entries_perform, filter_app, <-(assoc_L (++)).
    f_equal.
    + rewrite list_filter_filter. apply list_filter_iff.
      intros e. simpl. rewrite andb_True. tauto.
    + f_equal. destruct (introduced a) as [e|]; simpl; [|done].
      rewrite filter_cons, filter_nil. by destruct (survives rest e).
Qed.

(** The store holds the entries currently registered, in the order of
    their registration. *)
Lemma entries_run actions : _entries (run actions) = currentlyRegistered actions.
Proof. unfold run. by rewrite entries_foldl_perform. Qed.

Lemma latestContext_foldl_perform actions r :
  latestContext (foldl perform r actions)
  = match lastContext actions with
    | Some context => Some context
    | None => latestContext r
    end.
Proof.
  revert r. induction actions as [|a rest IH]; intros r; [done|].
  simpl. rewrite IH, latestContext_perform. unfold lastContext. simpl.
  destruct a; simpl; try done.
  rewrite last_cons.
  change (list_omap Action Context ?f ?l) with (omap f l).
  by destruct (last (omap _ rest)).
Qed.

Lemma latestContext_run actions :
  latestContext (run actions) = lastContext actions.
Proof.
  unfold run. rewrite latestContext_foldl_perform.
  by destruct (lastContext actions).
Qed.

Lemma upToDate_perform r (a : Action) : upToDate r → upToDate (perform r a).
Proof.
  unfold upToDate. intros Hr. rewrite published_perform. unfold computedBy.
  destruct (latestContext (perform r a)) as [context|] eqn:Ec.
  - apply last_distinctUntilChanged.
  - rewrite latestContext_perform in Ec. destruct a; try done;
      by rewrite Ec in Hr.
Qed.

Lemma upToDate_run actions : upToDate (run actions).
Proof.
  unfold run. generalize newRegistry, (eq_refl : upToDate newRegistry).
  induction actions as [|a rest IH]; intros r Hr; [done|].
  simpl. apply IH. by apply upToDate_perform.
Qed.

Lemma noRepeats_run actions : noRepeats (published (run actions)).
Proof.
  unfold run.
  assert (noRepeats (published newRegistry)) as Hr by by intros [|?] ???.
  revert Hr. generalize newRegistry.
  induction actions as [|a rest IH]; intros r Hr; [done|].
  simpl. apply IH. rewrite published_perform.
  destruct (computedBy r a); [|done].
  by apply noRepeats_distinctUntilChanged.
Qed.
End store.

(** ** What the entries contribute *)

Section expected.
Context `{Collaborators}.
Implicit Types (context : Context) (e : ContributionsEntry).

Lemma filterContributions_when_filterable context (c : Contributions)
    (evaluateExpr : string → MutableContext → Outcome JsValue) :
  filterable context evaluateExpr c →
  outcomeOf (filterContributions context c evaluateExpr)
  = Returned {| commands := commands c;
                menus := shownMenus context evaluateExpr <$> menus c |}.
Proof.
  unfold filterable. destruct (menus c) as [m|] eqn:Em; simpl.
  - intros Hall. by rewrite (filterContributions_returns _ _ _ m Em Hall).
  - intros _. rewrite filterContributions_no_menus by done.
    destruct c as [cs ms]. simpl in Em. by rewrite Em.
Qed.

Lemma filterContributions_when_not_filterable context (c : Contributions)
    (evaluateExpr : string → MutableContext → Outcome JsValue) :
  ¬ filterable context evaluateExpr c →
  ∃ err, outcomeOf (filterContributions context c evaluateExpr) = Thrown err.
Proof.
  unfold filterable. destruct (menus c) as [m|] eqn:Em; simpl; [|done].
  intros Hnot. by apply filterContributions_throws with m.
Qed.

(** The [try] block against the expectation: it returns what the entry is
    expected to contribute, or the entry fails and it throws. *)
Lemma tryEvaluate_expected context e :
  ¬ entryFails context e
  ∧ outcomeOf (tryEvaluate context (contributions e))
    = Returned (contributionExpected context e)
  ∨ entryFails context e
    ∧ contributionExpected context e = emptyContributions
    ∧ ∃ err, outcomeOf (tryEvaluate context (contributions e)) = Thrown err.
Proof.
  unfold entryFails, contributionExpected, tryEvaluate, commandsOf.
  rewrite outcomeOf_bind.
  destruct (decide (filterable context evaluate (contributions e)))
    as [Hf|Hnot].
  - rewrite (filterContributions_when_filterable _ _ _ Hf).
    cbn [mbind Outcome_bind]. rewrite evaluateContributions_outcome.
    cbn [commands menus].
    destruct (commands (contributions e)) as [cs|]; cbn [default].
    + destruct (mapM _ cs) as [es|err] eqn:Em; cbn [fmap Outcome_fmap].
      * left. split; [|done]. by intros [?|[err [=]]].
      * right. split_and!; eauto.
    + left. split; [|done]. by intros [?|[err [=]]].
  - right. split_and!; [by left|done|].
    destruct (filterContributions_when_not_filterable _ _ _ Hnot) as [err Herr].
    exists err. by rewrite Herr.
Qed.

Lemma evaluated_expected context e :
  evaluated context e = contributionExpected context e.
Proof.
  unfold evaluated.
  destruct (tryEvaluate_expected context e)
    as [[_ Hreturned]|(_ & -> & err & Hthrown)].
  - by rewrite (evaluateEntry_returned _ _ _ Hreturned).
  - by rewrite (evaluateEntry_thrown _ _ _ Hthrown).
Qed.

Lemma commandsOf_expected context e :
  commandsOf (contributionExpected context e) = commandsExpected context e.
Proof.
  unfold contributionExpected, commandsExpected, commandsOf.
  case_decide; [|done].
  destruct (commands (contributions e)) as [cs|]; cbn [default]; [|done].
  by destruct (mapM _ cs).
Qed.

Lemma entryFails_throws context e :
  entryFails context e → evaluationThrows context e.
Proof.
  intros Hfails. unfold evaluationThrows.
  by destruct (tryEvaluate_expected context e) as [[? _]|(_ & _ & ?)].
Qed.
End expected.

(** C1. After every sequence of registrations, deregistrations, replacements
    and context changes on a new registry, the store holds the entries
    currently registered in the order of their registration; and once a
    context has been received, the aggregate published last is the merge of
    what the entries are expected to contribute in the latest context, and
    its commands are the concatenation, in that order, of the commands of
    the entries interpolated field by field, an entry contributing nothing
    when the [when] of one of its menu items or the interpolation of one of
    its commands throws. Each entry enters the merge as what the code
    evaluates it to, which is what its [try] block returns when it does not
    throw. *)
Theorem published_commands `{Collaborators} (actions : list Action) :
  _entries (run actions) = currentlyRegistered actions
  ∧ latestContext (run actions) = lastContext actions
  ∧ match lastContext actions with
    | Some context =>
        ∃ merged,
          last (published (run actions)) = Some merged
          ∧ merged
            = mergeContributions
                (contributionExpected context <$> currentlyRegistered actions)
          ∧ commandsOf merged
            = concat (commandsExpected context
                      <$> currentlyRegistered actions)
          ∧ merged
            = mergeContributions
                (evaluated context <$> currentlyRegistered actions)
          ∧ commandsOf merged
            = concat (commandsContributed context
                      <$> currentlyRegistered actions)
          ∧ ∀ e,
              (entryFails context e ↔ evaluationThrows context e)
              ∧ commandsContributed context e = commandsExpected context e
              ∧ ∀ result,
                  outcomeOf (tryEvaluate context (contributions e))
                  = Returned result →
                  contributionExpected context e = result
    | None => published (run actions) = []
    end.
Proof.
  split_and!; [apply entries_run|apply latestContext_run|].
  pose proof (upToDate_run actions) as Hup. unfold upToDate in Hup.
  rewrite latestContext_run, entries_run in Hup.
  destruct (lastContext actions) as [context|]; [|done].
  rewrite aggregate_eq in Hup. cbn [snd] in Hup.
  assert (evaluated context <$> currentlyRegistered actions
          = contributionExpected context <$> currentlyRegistered actions)
    as Hexpected.
  { apply list_fmap_ext. intros _ e _. apply evaluated_expected. }
  eexists; split_and!; [exact Hup|by rewrite Hexpected| |done| |].
  - rewrite Hexpected, commandsOf_mergeContributions, <-list_fmap_compose.
    f_equal. apply list_fmap_ext. intros _ e _. apply commandsOf_expected.
  - rewrite commandsOf_mergeContributions, <-list_fmap_compose.
    f_equal. apply list_fmap_ext. intros _ e _. apply commandsOf_evaluated.
  - intros e. split_and!.
    + split; [apply entryFails_throws|]. intros [err Herr].
      destruct (tryEvaluate_expected context e) as [[_ Hr]|[? _]]; [|done].
      congruence.
    + by rewrite <-commandsOf_evaluated, evaluated_expected, commandsOf_expected.
    + intros result Hresult.
      destruct (tryEvaluate_expected context e)
        as [[_ Hr]|(_ & _ & err & Herr)]; congruence.
Qed.

(** C2. If the evaluation of an entry fails (the [when] of one of its menu
    items throws, or the interpolation of one of its commands does), its
    [try] block throws, the entry enters the merge as the empty
    contributions and the failure is reported on the console with the
    contributions of the entry. Every other entry enters the merge as what
    it is expected to contribute, which is what its own [try] block returns
    when it does not fail, whatever the other entries are; and the
    aggregate is the merge of the contributions of the other entries, that
    is the aggregate of the list without the failing entry. *)
Theorem failing_entry_isolated `{Collaborators} (context : Context)
    (before after : list ContributionsEntry) (e : ContributionsEntry) :
  entryFails context e →
  evaluationThrows context e
  ∧ evaluated context e = emptyContributions
  ∧ (∃ err, outcomeOf (tryEvaluate context (contributions e)) = Thrown err
            ∧ ConsoleError (contributions e) err
              ∈ (aggregate context (before ++ e :: after)).1)
  ∧ (evaluateEntries context (before ++ e :: after)).2
    = (contributionExpected context <$> before)
      ++ emptyContributions :: (contributionExpected context <$> after)
  ∧ (evaluateEntries context (before ++ after)).2
    = (contributionExpected context <$> before)
      ++ (contributionExpected context <$> after)
  ∧ (aggregate context (before ++ e :: after)).2
    = mergeContributions (contributionExpected context <$> before ++ after)
  ∧ (aggregate context (before ++ e :: after)).2
    = (aggregate context (before ++ after)).2
  ∧ ∀ e', ¬ entryFails context e' →
          outcomeOf (tryEvaluate context (contributions e'))
          = Returned (contributionExpected context e')
          ∧ (evaluateEntry context (contributions e')).2
            = contributionExpected context e'.
Proof.
  intros Hfails. pose proof (entryFails_throws _ _ Hfails) as Hthrows.
  pose proof (evaluated_thrown _ _ Hthrows) as Hempty.
  assert (∀ entries : list ContributionsEntry,
            evaluated context <$> entries
            = contributionExpected context <$> entries) as Hexpected.
  { intros entries. apply list_fmap_ext. intros _ e' _.
    apply evaluated_expected. }
  split_and!.
  - done.
  - done.
  - destruct Hthrows as [err Herr]. exists err. split; [done|].
    rewrite aggregate_eq, evaluateEntries_log. cbn [fst].
    apply elem_of_concat.
    exists (evaluateEntry context (contributions e)).1. split.
    + apply list_elem_of_fmap. exists e. split; [done|].
      apply elem_of_app. right. by left.
    + rewrite (evaluateEntry_thrown _ _ _ Herr). cbn [fst].
      apply elem_of_app. right. by left.
  - by rewrite evaluateEntries_evaluated, fmap_app, fmap_cons, Hempty,
      !Hexpected.
  - by rewrite evaluateEntries_evaluated, fmap_app, !Hexpected.
  - rewrite aggregate_eq. cbn [snd].
    by rewrite !fmap_app, fmap_cons, Hempty, mergeContributions_insert_empty,
      !Hexpected.
  - rewrite !aggregate_eq. cbn [snd].
    by rewrite !fmap_app, fmap_cons, Hempty, mergeContributions_insert_empty.
  - intros e' Hnot.
    destruct (tryEvaluate_expected context e') as [[_ Hr]|[? _]]; [|done].
    split; [done|]. by rewrite (evaluateEntry_returned _ _ _ Hr).
Qed.

(** The evaluation of [brokenEntry] fails, its [try] block throws, and the
    aggregate is the merge of the two other entries, with the title of the
    first interpolated and the items of the second filtered. *)
Lemma failing_entry_isolated_witness :
  @entryFails exampleCollaborators exampleContext brokenEntry
  ∧ @evaluationThrows exampleCollaborators exampleContext brokenEntry
  ∧ (@aggregate exampleCollaborators exampleContext
       ([helloEntry] ++ brokenEntry :: [otherEntry])).2
    = {| commands := Some [commandTitled "a" (Some "Bo");
                           commandTitled "c" None];
         menus := Some {[ "editor/title" :=
                            [menuItem "a" None; menuItem "c" (Some "yes")] ]} |}.
Proof.
  assert (@entryFails exampleCollaborators exampleContext brokenEntry)
    as Hfails.
  { left. apply (bool_decide_eq_false_1 _). vm_compute. reflexivity. }
  destruct (@failing_entry_isolated exampleCollaborators exampleContext
              [helloEntry] [otherEntry] brokenEntry Hfails)
    as (Hthrows & _ & _ & _ & _ & Hmerge & _).
  split_and!; [exact Hfails|exact Hthrows|].
  rewrite Hmerge. vm_compute. reflexivity.
Defined.

(** C7 as stated fails: before the registry has received a context,
    [combineLatest] has nothing to combine the entries with, and a
    replacement of a registered entry recomputes nothing. *)
Lemma replace_before_first_context_counterexample :
  let r := @run exampleCollaborators [Register helloEntry] in
  let r' := (replaceContributions {| entry := helloEntry |} otherEntry r).1 in
  helloEntry ∈ _entries r
  ∧ _entries r' = [otherEntry]
  ∧ recomputations r = 0
  ∧ recomputations r' = 0
  ∧ published r' = [].
Proof. split_and!; [by left|done..]. Qed.

(** C7, as amended. [replaceContributions] calls [_entries.next] once, with
    the list in which the previous entry is removed and the next one
    appended: the observers of the entries see exactly one new list, which
    holds the next entry, and the store then holds that list. A registry
    that has received a context recomputes the aggregate exactly once, on
    that list, and its observer receives at most one aggregate, the one of
    that list; before the first context [combineLatest] emits nothing, so
    that nothing is recomputed or published. *)
Theorem replaceContributions_atomic `{Collaborators} (r : ContributionRegistry)
    (previous : ContributionUnsubscribable) (next_ : ContributionsEntry) :
  let r' := (replaceContributions previous next_ r).1 in
  let value :=
    filter (λ e, negb (sameEntry e (entry previous))) (_entries r) ++ [next_] in
  _entries r' = value
  ∧ entriesEmitted r' = entriesEmitted r ++ [value]
  ∧ next_ ∈ value
  ∧ (∀ e, e ∈ value →
       e = next_ ∨ e ∈ _entries r ∧ sameEntry e (entry previous) = false)
  ∧ match latestContext r with
    | Some context =>
        recomputations r' = S (recomputations r)
        ∧ published r'
          = distinctUntilChanged isEqual (published r)
              (aggregate context value).2
        ∧ (published r' = published r
           ∨ published r' = published r ++ [(aggregate context value).2])
    | None =>
        recomputations r' = recomputations r ∧ published r' = published r
    end
  ∧ entry (replaceContributions previous next_ r).2 = next_.
Proof.
  simpl. rewrite next_eq. simpl. split_and!; try done.
  - apply elem_of_app. right. by left.
  - intros e [[Hkeep Hin]%list_elem_of_filter| ->%list_elem_of_singleton]%elem_of_app;
      [right|by left].
    split; [done|]. by destruct (sameEntry e (entry previous)).
  - destruct (latestContext r) as [context|]; [|done].
    split_and!; [done..|].
    match goal with
    | |- context [distinctUntilChanged isEqual ?delivered ?v] =>
        destruct (distinctUntilChanged_cases delivered v) as [[-> _]|[-> _]]
    end; auto.
Qed.

(** Removing and then adding, as two calls, is observable: the observers of
    the entries see a list with neither entry. *)
Example unsubscribe_then_register_emits_twice :
  let r := @run exampleCollaborators [Register helloEntry] in
  entriesEmitted
    (registerContributions otherEntry
       (unsubscribe {| entry := helloEntry |} r)).1
  = entriesEmitted r ++ [[]; [otherEntry]]
  ∧ entriesEmitted
      (replaceContributions {| entry := helloEntry |} otherEntry r).1
    = entriesEmitted r ++ [[otherEntry]].
Proof. split; reflexivity. Qed.

(** C8 as stated fails: registering the same entry object twice puts it at
    two positions of the store. *)
Lemma register_twice_counterexample :
  let entries := _entries (@run exampleCollaborators
                             [Register helloEntry; Register helloEntry]) in
  entries !! 0 = Some helloEntry ∧ entries !! 1 = Some helloEntry
  ∧ ¬ NoDup (entry_ref <$> entries).
Proof.
  split_and!; [done|done|].
  intros Hnd. apply NoDup_cons in Hnd as [Hnotin _]. apply Hnotin. by left.
Qed.

Section store_NoDup.
Context `{Collaborators}.
Implicit Types (r : ContributionRegistry) (actions : list Action).

Lemma NoDup_perform r (a : Action) :
  (∀ e, introduced a = Some e →
     entry_ref e
     ∉ entry_ref <$> filter (λ x, negb (removes a x)) (_entries r)) →
  NoDup (entry_ref <$> _entries r) →
  NoDup (entry_ref <$> _entries (perform r a)).
Proof.
  intros Hfresh Hnd. rewrite entries_perform, fmap_app.
  assert (NoDup (entry_ref <$> filter (λ x, negb (removes a x)) (_entries r)))
    as Hkept.
  { eapply sublist_NoDup; [exact Hnd|]. apply fmap_sublist, sublist_filter. }
  destruct (introduced a) as [e|]; simpl; [|by rewrite app_nil_r].
  apply NoDup_app. split_and!; [done| |apply NoDup_singleton].
  intros x Hx ->%list_elem_of_singleton. by apply (Hfresh e).
Qed.

Lemma NoDup_foldl_perform actions r :
  NoDup (entry_ref <$> _entries r) → registersFresh r actions →
  NoDup (entry_ref <$> _entries (foldl perform r actions)).
Proof.
  revert r. induction actions as [|a rest IH]; intros r Hnd Hfresh; [done|].
  destruct Hfresh as [Ha Hrest]. simpl. apply IH; [|done].
  by apply NoDup_perform.
Qed.

Lemma registersFresh_take actions r n :
  registersFresh r actions → registersFresh r (take n actions).
Proof.
  revert r n. induction actions as [|a rest IH]; intros r [|n]; try done.
  intros [Ha Hrest]. split; [done|]. by apply IH.
Qed.
End store_NoDup.

(** C8, as amended. In a sequence of actions on a new registry in which no
    action registers an entry object that it leaves in the store (the store
    as it is then, less the entry that the action replaces), the store never
    holds an entry object at two positions: after every prefix of the
    sequence the references of the entries of the store are distinct. *)
Theorem entries_NoDup `{Collaborators} (actions : list Action) (n : nat) :
  registersFresh newRegistry actions →
  NoDup (entry_ref <$> _entries (run (take n actions))).
Proof.
  intros Hfresh. apply NoDup_foldl_perform.
  - apply NoDup_nil_2.
  - by apply registersFresh_take.
Qed.

(** Two registrations and a replacement of the first entry by a new one. *)
Lemma entries_NoDup_witness :
  NoDup (entry_ref
         <$> _entries (@run exampleCollaborators
                         (take 3 [Register helloEntry; Register brokenEntry;
                                  Replace {| entry := helloEntry |} otherEntry]))).
Proof.
  apply (@entries_NoDup exampleCollaborators
           [Register helloEntry; Register brokenEntry;
            Replace {| entry := helloEntry |} otherEntry] 3).
  simpl. split_and!; try done; intros e [= <-]; vm_compute;
    intros Hin; repeat (apply elem_of_cons in Hin as [?|Hin]; [done|]);
    by apply elem_of_nil in Hin.
Defined.

(** C9. When the aggregate computed on a trigger equals the aggregate
    published last, nothing is delivered; two consecutive triggers that
    compute equal aggregates deliver at most one aggregate between them, the
    second delivering none; a trigger delivers at most one aggregate; and no
    observer ever receives the same aggregate twice in a row. *)
Theorem duplicates_suppressed `{Collaborators} (r : ContributionRegistry)
    (a1 a2 : Action) (actions : list Action) :
  let r1 := perform r a1 in
  let r2 := perform r1 a2 in
  (∀ merged, computedBy r a1 = Some merged →
     last (published r) = Some merged → published r1 = published r)
  ∧ (∀ merged, computedBy r a1 = Some merged →
       computedBy r1 a2 = Some merged →
       published r2 = published r1
       ∧ length (published r2) ≤ S (length (published r)))
  ∧ length (published r1) ≤ S (length (published r))
  ∧ noRepeats (published (run actions)).
Proof.
  simpl. split_and!.
  - intros merged Hc Hlast. rewrite published_perform, Hc.
    by apply distinctUntilChanged_same.
  - intros merged Hc1 Hc2.
    rewrite (published_perform (perform r a1)), Hc2.
    rewrite (published_perform r), Hc1.
    rewrite (distinctUntilChanged_same (distinctUntilChanged _ _ _))
      by apply last_distinctUntilChanged.
    split; [done|]. apply length_distinctUntilChanged.
  - rewrite published_perform. destruct (computedBy r a1); [|lia].
    apply length_distinctUntilChanged.
  - apply noRepeats_run.
Qed.

(** ** The registry at work *)

(** A templated title follows the context without a new registration. *)
Example title_follows_context :
  let r := @run exampleCollaborators
             [Register helloEntry; ContextChange exampleContext;
              ContextChange (<["${user}" := JsString "Zed"]> exampleContext)] in
  (λ c, title <$> commandsOf c) <$> published r
  = [[Some "Bo"]; [Some "Zed"]].
Proof. vm_compute. reflexivity. Qed.

(** Two entries contribute to the same menu, the first registered first; the
    item whose [when] is falsy is left out. *)
Example menu_items_in_registration_order :
  let r := @run exampleCollaborators
             [ContextChange exampleContext; Register helloEntry;
              Register otherEntry] in
  (λ c, menuItemsOf c "editor/title") <$> last (published r)
  = Some [menuItem "a" None; menuItem "c" (Some "yes")].
Proof. vm_compute. reflexivity. Qed.

(** An entry whose evaluation throws is reported and changes nothing of what
    is published: the aggregate with it equals the one before, and is not
    delivered again. *)
Example broken_entry_is_silent :
  let r := @run exampleCollaborators
             [ContextChange exampleContext; Register helloEntry] in
  let r' := perform r (Register brokenEntry) in
  published r' = published r
  ∧ recomputations r' = S (recomputations r)
  ∧ last (console r')
    = Some (ConsoleError (contributions brokenEntry) (ExpressionError "missing")).
Proof. vm_compute. split_and!; reflexivity. Qed.

(** A context change that no [when] and no template depends on is not
    delivered. *)
Example irrelevant_context_change_suppressed :
  let r := @run exampleCollaborators
             [Register helloEntry; ContextChange exampleContext] in
  let r' := perform r (ContextChange (<["unused" := JsNull]> exampleContext)) in
  published r' = published r ∧ recomputations r' = S (recomputations r).
Proof. vm_compute. split; reflexivity. Qed.

(** A plain title is tested by [needsEvaluation] and not given to the
    template evaluator; the command object is reused. *)
Example plain_title_not_evaluated :
  let c := commandTitled "a" (Some "plain") in
  @evaluateCommand exampleCollaborators exampleContext
    DEFAULT_TEMPLATE_EVALUATOR c
  = ([CallNeedsEvaluation "plain"], Returned (SameObject c)).
Proof. reflexivity. Qed.

(** The filter of [otherEntry] keeps the item whose [when] is truthy. *)
Example filter_keeps_truthy :
  menuItemsOf
    (@evaluated exampleCollaborators exampleContext otherEntry) "editor/title"
  = [menuItem "c" (Some "yes")].
Proof. vm_compute. reflexivity. Qed.

(** A menu whose items are all filtered out keeps its key. *)
Example filter_keeps_empty_menu :
  let c := {| commands := None;
              menus := Some {[ "editor/title" := [menuItem "d" (Some "no")] ]} |} in
  outcomeOf (@filterContributions exampleCollaborators exampleContext c evaluate)
  = Returned {| commands := None; menus := Some {[ "editor/title" := [] ]} |}.
Proof. vm_compute. reflexivity. Qed.

(** With the default evaluator, whose [needsEvaluation] looks for
    [TEMPLATE_BEGIN], the test of the field before [needsEvaluation] changes
    nothing as long as [TEMPLATE_BEGIN] is not empty: [needsEvaluation] is
    false of the empty string. *)
Remark default_needsEvaluation_empty `{Collaborators} :
  TEMPLATE_BEGIN ≠ "" →
  te_needsEvaluation DEFAULT_TEMPLATE_EVALUATOR "" = false.
Proof. simpl. by destruct TEMPLATE_BEGIN. Qed.

(** * Further properties *)

(** ** Deregistration and replacement *)

Section deregistration.
Context `{Collaborators}.
Implicit Types (r : ContributionRegistry) (e : ContributionsEntry).
Implicit Types (h previous : ContributionUnsubscribable).
Implicit Types (entries : list ContributionsEntry).

Lemma filter_other_entries_idemp entries e :
  filter (λ x, negb (sameEntry x e)) (filter (λ x, negb (sameEntry x e)) entries)
  = filter (λ x, negb (sameEntry x e)) entries.
Proof.
  rewrite list_filter_filter. apply list_filter_iff. intros x. tauto.
Qed.

(** Removing an entry that is not there removes nothing. *)
Lemma filter_other_entries_absent entries e :
  entry_ref e ∉ entry_ref <$> entries →
  filter (λ x, negb (sameEntry x e)) entries = entries.
Proof.
  induction entries as [|x entries IH]; [done|].
  rewrite fmap_cons, not_elem_of_cons. intros [Hne Hnotin].
  rewrite filter_cons_True, IH; [done..|].
  unfold sameEntry. rewrite bool_decide_false; [done|congruence].
Qed.

Lemma filter_other_entries_snoc entries e :
  filter (λ x, negb (sameEntry x e)) (entries ++ [e])
  = filter (λ x, negb (sameEntry x e)) entries.
Proof.
  rewrite filter_app, filter_cons_False, filter_nil, app_nil_r; [done|].
  unfold sameEntry. rewrite bool_decide_true; [|done]. by intros [].
Qed.

Lemma latestContext_next (value : list ContributionsEntry) r :
  latestContext (next value r) = latestContext r.
Proof. by rewrite next_eq. Qed.

Lemma entries_next (value : list ContributionsEntry) r :
  _entries (next value r) = value.
Proof. by rewrite next_eq. Qed.

(** After [next], what is published last is the aggregate of the value. *)
Lemma last_published_next (value : list ContributionsEntry) r :
  last (published (next value r))
  = match latestContext r with
    | Some context => Some (aggregate context value).2
    | None => last (published r)
    end.
Proof.
  rewrite next_eq. simpl. destruct (latestContext r); [|done].
  apply last_distinctUntilChanged.
Qed.

(** [next] with the value that the store holds publishes nothing when the
    registry is up to date. *)
Lemma published_next_same r :
  upToDate r → published (next (_entries r) r) = published r.
Proof.
  unfold upToDate. rewrite next_eq. simpl.
  destruct (latestContext r); [|done]. apply distinctUntilChanged_same.
Qed.
End deregistration.

(** X1. A second call of [unsubscribe] on the same handle leaves the store
    as the first call left it, in which no entry is the one of the handle,
    and publishes nothing; the store still emits its list once more. *)
Theorem unsubscribe_twice `{Collaborators} (r : ContributionRegistry)
    (h : ContributionUnsubscribable) :
  let r1 := unsubscribe h r in
  let r2 := unsubscribe h r1 in
  _entries r2 = _entries r1
  ∧ (∀ e, e ∈ _entries r1 → sameEntry e (entry h) = false)
  ∧ published r2 = published r1
  ∧ entriesEmitted r2 = entriesEmitted r1 ++ [_entries r1].
Proof.
  simpl. set (r1 := unsubscribe h r).
  assert (_entries r1 = filter (λ e, negb (sameEntry e (entry h))) (_entries r))
    as Hr1 by apply entries_next.
  assert (filter (λ e, negb (sameEntry e (entry h))) (_entries r1) = _entries r1)
    as Hidem by (rewrite Hr1; apply filter_other_entries_idemp).
  unfold unsubscribe at 1 2 3. rewrite Hidem, next_eq. simpl. split_and!.
  - done.
  - intros e. rewrite Hr1. intros [Hkeep _]%list_elem_of_filter.
    by destruct (sameEntry e (entry h)).
  - pose proof (last_published_next
                  (filter (λ e, negb (sameEntry e (entry h))) (_entries r)) r)
      as Hlast.
    fold (unsubscribe h r) in Hlast. fold r1 in Hlast.
    replace (latestContext r1) with (latestContext r)
      by (symmetry; apply latestContext_next).
    destruct (latestContext r) as [context|]; [|done].
    apply distinctUntilChanged_same. by rewrite Hlast, Hr1.
  - done.
Qed.

Lemma not_elem_of_refs_filter (P : ContributionsEntry → Prop)
    `{!∀ x, Decision (P x)} (entries : list ContributionsEntry) (ref : nat) :
  ref ∉ entry_ref <$> entries → ref ∉ entry_ref <$> filter P entries.
Proof.
  intros Hnotin (x & -> & [_ Hin]%list_elem_of_filter)%list_elem_of_fmap.
  apply Hnotin, list_elem_of_fmap. eauto.
Qed.

(** X2. [unsubscribe] with a handle whose entry is not in the store leaves
    the store as it is: the store emits the same list again, and a registry
    that is up to date publishes nothing. *)
Theorem unsubscribe_unknown `{Collaborators} (r : ContributionRegistry)
    (h : ContributionUnsubscribable) :
  entry_ref (entry h) ∉ entry_ref <$> _entries r →
  _entries (unsubscribe h r) = _entries r
  ∧ entriesEmitted (unsubscribe h r) = entriesEmitted r ++ [_entries r]
  ∧ (upToDate r → published (unsubscribe h r) = published r).
Proof.
  intros Habsent. unfold unsubscribe.
  rewrite filter_other_entries_absent by done.
  split_and!; [by rewrite next_eq..|]. apply published_next_same.
Qed.

Lemma unsubscribe_unknown_witness :
  let r := @run exampleCollaborators
             [ContextChange exampleContext; Register helloEntry] in
  _entries (unsubscribe {| entry := otherEntry |} r) = [helloEntry]
  ∧ published (unsubscribe {| entry := otherEntry |} r) = published r.
Proof.
  simpl.
  destruct (@unsubscribe_unknown exampleCollaborators
              (run [ContextChange exampleContext; Register helloEntry])
              {| entry := otherEntry |}) as (Hentries & _ & Hpublished).
  - vm_compute. intros Hin.
    repeat (apply elem_of_cons in Hin as [?|Hin]; [done|]).
    by apply elem_of_nil in Hin.
  - split; [exact Hentries|]. apply Hpublished, upToDate_run.
Defined.

(** X3. The handle that [registerContributions] or [replaceContributions]
    returns removes the entry that the call registered: for an entry object
    that was not in the store, registering it and calling [unsubscribe] on
    the handle returned gives back the store (for a replacement, the store
    without the entry replaced), and in a registry that was up to date the
    aggregate published last is again the one from before. *)
Theorem handle_round_trip `{Collaborators} (r : ContributionRegistry)
    (e : ContributionsEntry) (previous : ContributionUnsubscribable) :
  entry_ref e ∉ entry_ref <$> _entries r →
  let registered := registerContributions e r in
  let replaced := replaceContributions previous e r in
  _entries (unsubscribe registered.2 registered.1) = _entries r
  ∧ _entries (unsubscribe replaced.2 replaced.1)
    = filter (λ x, negb (sameEntry x (entry previous))) (_entries r)
  ∧ (upToDate r →
     last (published (unsubscribe registered.2 registered.1))
     = last (published r)).
Proof.
  intros Hfresh. simpl. unfold unsubscribe. simpl.
  rewrite !entries_next, !filter_other_entries_snoc.
  rewrite !filter_other_entries_absent
    by (done || by apply not_elem_of_refs_filter).
  split_and!; [done..|].
  intros Hup. unfold upToDate in Hup.
  rewrite last_published_next, latestContext_next, last_published_next.
  by destruct (latestContext r).
Qed.

Lemma handle_round_trip_witness :
  let r := @run exampleCollaborators
             [ContextChange exampleContext; Register helloEntry] in
  let registered := registerContributions otherEntry r in
  _entries (unsubscribe registered.2 registered.1) = [helloEntry].
Proof.
  simpl.
  refine (proj1 (@handle_round_trip exampleCollaborators
                   (run [ContextChange exampleContext; Register helloEntry])
                   otherEntry {| entry := helloEntry |} _)).
  vm_compute. intros Hin.
  repeat (apply elem_of_cons in Hin as [?|Hin]; [done|]).
  by apply elem_of_nil in Hin.
Defined.

(** X4. [replaceContributions] with a handle whose entry is not in the
    store does what [registerContributions] does: it appends the next entry
    and removes nothing. *)
Theorem replace_unregistered `{Collaborators} (r : ContributionRegistry)
    (previous : ContributionUnsubscribable) (next_ : ContributionsEntry) :
  entry_ref (entry previous) ∉ entry_ref <$> _entries r →
  replaceContributions previous next_ r = registerContributions next_ r.
Proof.
  intros Habsent. unfold replaceContributions, registerContributions.
  by rewrite filter_other_entries_absent.
Qed.

Lemma replace_unregistered_witness :
  let r := @run exampleCollaborators
             [ContextChange exampleContext; Register helloEntry] in
  replaceContributions {| entry := brokenEntry |} otherEntry r
  = registerContributions otherEntry r.
Proof.
  simpl.
  apply (@replace_unregistered exampleCollaborators
           (run [ContextChange exampleContext; Register helloEntry])
           {| entry := brokenEntry |} otherEntry).
  vm_compute. intros Hin.
  repeat (apply elem_of_cons in Hin as [?|Hin]; [done|]).
  by apply elem_of_nil in Hin.
Defined.

(** X5. [replaceContributions] leaves the store, and the aggregate
    published last, as [unsubscribe] followed by [registerContributions]
    would; but it emits one list where the two calls emit two. The first
    list that the two calls emit is the store with the previous entry
    removed and the next one not yet appended: no entry of it is the
    previous one, and the next entry is not in it either unless that entry
    object was in the store already. In a registry that has received a
    context the two calls recompute twice where [replaceContributions]
    recomputes once; before the first context neither recomputes. *)
Theorem replace_as_two_steps `{Collaborators} (r : ContributionRegistry)
    (previous : ContributionUnsubscribable) (next_ : ContributionsEntry) :
  let atomic := (replaceContributions previous next_ r).1 in
  let twoSteps := (registerContributions next_ (unsubscribe previous r)).1 in
  let removed :=
    filter (λ e, negb (sameEntry e (entry previous))) (_entries r) in
  _entries twoSteps = _entries atomic
  ∧ last (published twoSteps) = last (published atomic)
  ∧ entriesEmitted atomic = entriesEmitted r ++ [removed ++ [next_]]
  ∧ entriesEmitted twoSteps
    = entriesEmitted r ++ [removed; removed ++ [next_]]
  ∧ (∀ e, e ∈ removed → sameEntry e (entry previous) = false)
  ∧ (entry_ref next_ ∉ entry_ref <$> _entries r →
     entry_ref next_ ∉ entry_ref <$> removed)
  ∧ recomputations twoSteps
    = match latestContext r with
      | Some _ => S (recomputations atomic)
      | None => recomputations atomic
      end
  ∧ match latestContext r with
    | Some _ =>
        recomputations atomic = S (recomputations r)
        ∧ recomputations twoSteps = S (S (recomputations r))
    | None =>
        recomputations atomic = recomputations r
        ∧ recomputations twoSteps = recomputations r
    end.
Proof.
  simpl. unfold unsubscribe.
  rewrite !last_published_next, latestContext_next, !entries_next.
  split_and!.
  - done.
  - by destruct (latestContext r).
  - by rewrite next_eq.
  - rewrite !next_eq. simpl. by rewrite <-(assoc_L (++)).
  - intros e [Hkeep _]%list_elem_of_filter.
    by destruct (sameEntry e (entry previous)).
  - apply not_elem_of_refs_filter.
  - rewrite !next_eq. simpl. by destruct (latestContext r).
  - rewrite !next_eq. simpl. by destruct (latestContext r).
Qed.

(** ** The registry over a sequence of actions *)

Section channels.
Context `{Collaborators}.
Implicit Types (context : Context) (r : ContributionRegistry).
Implicit Types (actions : list Action) (e : ContributionsEntry).

Lemma entriesEmitted_perform r (a : Action) :
  entriesEmitted (perform r a)
  = entriesEmitted r
    ++ if isContextChange a then [] else [_entries (perform r a)].
Proof.
  destruct a; simpl; unfold unsubscribe; rewrite ?next_eq, ?contextNext_eq;
    simpl; by rewrite ?app_nil_r.
Qed.

Lemma emittedLast_perform r (a : Action) :
  emittedLast r → emittedLast (perform r a).
Proof.
  unfold emittedLast. rewrite entriesEmitted_perform.
  destruct a as [e|h|h e|context]; unfold isContextChange;
    rewrite ?last_snoc; try done.
  rewrite app_nil_r. unfold perform. by rewrite contextNext_eq.
Qed.

Lemma recomputations_perform r (a : Action) :
  recomputations (perform r a)
  = match latestContext (perform r a) with
    | Some _ => S (recomputations r)
    | None => recomputations r
    end.
Proof.
  destruct a; simpl; unfold unsubscribe; rewrite ?next_eq, ?contextNext_eq;
    simpl; by destruct (latestContext r).
Qed.

Lemma entriesEmitted_foldl_perform actions r :
  length (entriesEmitted (foldl perform r actions))
  = length (entriesEmitted r)
    + length (filter (λ a, negb (isContextChange a)) actions).
Proof.
  revert r. induction actions as [|a rest IH]; intros r; simpl; [lia|].
  rewrite IH, entriesEmitted_perform, length_app, filter_cons.
  destruct (isContextChange a); simpl; lia.
Qed.

Lemma emittedLast_foldl_perform actions r :
  emittedLast r → emittedLast (foldl perform r actions).
Proof.
  revert r. induction actions as [|a rest IH]; intros r Hr; [done|].
  simpl. by apply IH, emittedLast_perform.
Qed.

Lemma recomputations_foldl_perform actions r :
  recomputations (foldl perform r actions)
  = recomputations r
    + match latestContext r with
      | Some _ => length actions
      | None => length (fromFirstContext actions)
      end.
Proof.
  revert r. induction actions as [|a rest IH]; intros r; simpl.
  - destruct (latestContext r); lia.
  - rewrite IH, recomputations_perform, latestContext_perform.
    destruct a; simpl; destruct (latestContext r); lia.
Qed.

(** A recomputation reports the entries that throw, and only them. *)
Lemma tryEvaluate_no_console_error context (c : Contributions) :
  filter (λ ev, isConsoleError ev) (logOf (tryEvaluate context c)) = [].
Proof.
  assert (∀ (l : list Event),
            Forall (λ ev, isConsoleError ev = false) l →
            filter (λ ev, isConsoleError ev) l = []) as Hnone.
  { induction 1 as [|ev l Hev _ IH]; [done|].
    rewrite filter_cons_False; [done|]. rewrite Hev. by intros []. }
  apply Hnone, Forall_forall. intros ev. unfold tryEvaluate.
  intros [Hin|(filtered & _ & Hin)]%elem_of_logOf_bind.
  - by apply filterContributions_log
      in Hin as (? & ? & ? & ? & ? & _ & _ & _ & _ & ->).
  - eapply callsWithin_elem_of in Hin; [|apply evaluateContributions_calls].
    apply elem_of_concat in Hin as (calls & (c' & -> & _)%list_elem_of_fmap & Hin).
    by apply elem_of_expectedCallsOfCommand
      in Hin as (s & _ & _ & [->|[-> _]]).
Qed.

Lemma evaluateEntry_console_errors context e :
  filter (λ ev, isConsoleError ev) (evaluateEntry context (contributions e)).1
  = from_option (λ ev, [ev]) [] (consoleErrorOf context e).
Proof.
  unfold consoleErrorOf.
  destruct (outcomeOf (tryEvaluate context (contributions e))) as [c|err] eqn:Eo.
  - rewrite (evaluateEntry_returned _ _ _ Eo). simpl.
    apply tryEvaluate_no_console_error.
  - rewrite (evaluateEntry_thrown _ _ _ Eo). simpl.
    by rewrite filter_app, tryEvaluate_no_console_error.
Qed.

Lemma menuItemsOf_evaluated context e menu :
  menuItemsOf (evaluated context e) menu = menuItemsContributed context menu e.
Proof.
  unfold evaluated, menuItemsContributed, menuItemsOf.
  destruct (outcomeOf (tryEvaluate context (contributions e))) as [c|err] eqn:Eo.
  - rewrite (evaluateEntry_returned _ _ _ Eo). simpl.
    rewrite (tryEvaluate_menus _ _ _ Eo).
    destruct (menus (contributions e)) as [m|]; simpl; [|done].
    unfold shownMenus. rewrite lookup_fmap. by destruct (m !! menu).
  - by rewrite (evaluateEntry_thrown _ _ _ Eo).
Qed.

Lemma evaluated_emptyEntry context ref :
  evaluated context (emptyEntry ref) = emptyContributions.
Proof. done. Qed.

(** An entry that enters the merge as the empty contributions changes
    nothing of what a registry publishes. *)
Lemma register_neutral_entry actions e :
  (∀ context, lastContext actions = Some context →
     evaluated context e = emptyContributions) →
  published (perform (run actions) (Register e)) = published (run actions).
Proof.
  intros Hempty. rewrite published_perform. unfold computedBy.
  rewrite latestContext_perform, latestContext_run.
  change (_entries (perform (run actions) (Register e)))
    with (_entries (next (_entries (run actions) ++ [e]) (run actions))).
  rewrite entries_next.
  pose proof (upToDate_run actions) as Hup. unfold upToDate in Hup.
  rewrite latestContext_run in Hup.
  destruct (lastContext actions) as [context|]; [|done].
  apply distinctUntilChanged_same. rewrite Hup, !aggregate_eq. cbn [snd].
  rewrite fmap_app.
  change (evaluated context <$> [e]) with [evaluated context e].
  rewrite (Hempty context eq_refl).
  by rewrite mergeContributions_insert_empty, app_nil_r.
Qed.
End channels.

(** X6. After every sequence of actions on a new registry, the observers
    of the entries have seen one list for each registration,
    deregistration and replacement and none for a change of context, and
    the list they have seen last is the one the store holds. *)
Theorem entries_channel `{Collaborators} (actions : list Action) :
  length (entriesEmitted (run actions))
  = length (filter (λ a, negb (isContextChange a)) actions)
  ∧ emittedLast (run actions).
Proof.
  split.
  - unfold run. by rewrite entriesEmitted_foldl_perform.
  - by apply emittedLast_foldl_perform.
Qed.

(** X7. A registry recomputes the aggregate once for every action from the
    first change of context on, whatever the action, and never before. *)
Theorem recomputations_run `{Collaborators} (actions : list Action) :
  recomputations (run actions) = length (fromFirstContext actions).
Proof. unfold run. by rewrite recomputations_foldl_perform. Qed.

(** X8. Once a context has been received, each menu of the aggregate
    published last holds the concatenation, in the order of registration,
    of the items that the entries currently registered have under the key
    and that are shown in the latest context, the entries whose evaluation
    throws contributing none. *)
Theorem published_menus `{Collaborators} (actions : list Action) :
  match lastContext actions with
  | Some context =>
      ∃ merged,
        last (published (run actions)) = Some merged
        ∧ ∀ menu,
            menuItemsOf merged menu
            = concat (menuItemsContributed context menu
                      <$> currentlyRegistered actions)
  | None => published (run actions) = []
  end.
Proof.
  pose proof (upToDate_run actions) as Hup. unfold upToDate in Hup.
  rewrite latestContext_run, entries_run in Hup.
  destruct (lastContext actions) as [context|]; [|done].
  rewrite aggregate_eq in Hup. simpl in Hup.
  eexists; split; [exact Hup|]. intros menu.
  rewrite menuItemsOf_mergeContributions, <-list_fmap_compose.
  f_equal. apply list_fmap_ext. intros _ e _. apply menuItemsOf_evaluated.
Qed.

(** X9. One recomputation reports on the console exactly the entries whose
    evaluation throws, once each, in the order of the entries, each with
    its contributions and the exception. *)
Theorem console_errors `{Collaborators} (context : Context)
    (entries : list ContributionsEntry) :
  filter (λ ev, isConsoleError ev) (aggregate context entries).1
  = omap (consoleErrorOf context) entries.
Proof.
  rewrite aggregate_eq, evaluateEntries_log. simpl.
  induction entries as [|e entries IH]; [done|].
  rewrite fmap_cons. simpl concat.
  rewrite filter_app, IH, evaluateEntry_console_errors. simpl.
  by destruct (consoleErrorOf context e).
Qed.

(** X10. Registering an entry without contributions publishes nothing: the
    store holds one more entry and the observers of the aggregate are not
    notified. *)
Theorem register_empty_entry_silent `{Collaborators} (actions : list Action)
    (ref : nat) :
  _entries (perform (run actions) (Register (emptyEntry ref)))
  = _entries (run actions) ++ [emptyEntry ref]
  ∧ published (perform (run actions) (Register (emptyEntry ref)))
    = published (run actions).
Proof.
  split.
  - simpl. apply entries_next.
  - apply register_neutral_entry. intros context _.
    apply evaluated_emptyEntry.
Qed.

(** X11. Registering an entry whose evaluation throws in the latest context
    publishes nothing: the observers of the aggregate are not notified, and
    the last line of the console is the report of the failure. *)
Theorem register_failing_entry_silent `{Collaborators} (actions : list Action)
    (context : Context) (e : ContributionsEntry) :
  lastContext actions = Some context →
  evaluationThrows context e →
  published (perform (run actions) (Register e)) = published (run actions)
  ∧ ∃ err,
      last (console (perform (run actions) (Register e)))
      = Some (ConsoleError (contributions e) err).
Proof.
  intros Hcontext Hthrows. split.
  - apply register_neutral_entry. intros context' Hcontext'.
    apply evaluated_thrown. congruence.
  - destruct Hthrows as [err Herr]. exists err.
    change (perform (run actions) (Register e))
      with (next (_entries (run actions) ++ [e]) (run actions)).
    rewrite next_eq. cbn [console].
    rewrite latestContext_run, Hcontext, aggregate_eq, evaluateEntries_log.
    cbn [fst]. rewrite fmap_app, concat_app.
    change (concat ((λ e0, (evaluateEntry context (contributions e0)).1) <$> [e]))
      with ((evaluateEntry context (contributions e)).1 ++ []).
    rewrite (evaluateEntry_thrown _ _ _ Herr). cbn [fst].
    by rewrite app_nil_r, !(assoc_L (++)), last_snoc.
Qed.

Lemma register_failing_entry_silent_witness :
  let actions := [@ContextChange exampleCollaborators exampleContext;
                  Register helloEntry] in
  published (perform (run actions) (Register brokenEntry))
  = published (run actions).
Proof.
  simpl.
  refine (proj1 (@register_failing_entry_silent exampleCollaborators
                   [ContextChange exampleContext; Register helloEntry]
                   exampleContext brokenEntry _ _)).
  - vm_compute. reflexivity.
  - exists (ExpressionError "missing"). vm_compute. reflexivity.
Defined.

(** ** The calls of contextFilter *)

Lemma callsWithin_forOf {A B} (f : B → A → M B) (calls : A → list Event)
    (acc : B) (l : list A) :
  (∀ acc x, callsWithin (f acc x) (calls x)) →
  callsWithin (forOf f acc l) (concat (calls <$> l)).
Proof.
  intros Hf. revert acc. induction l as [|x l IH]; intros acc.
  - apply callsWithin_ret.
  - simpl. apply callsWithin_bind; [apply Hf|intros ?; apply IH].
Qed.

Lemma contextFilterStep_calls `{Collaborators} (context : Context)
    (evaluateExpr : string → MutableContext → Outcome JsValue)
    (keep : list MenuItemContribution) (item : MenuItemContribution) :
  callsWithin (contextFilterStep context evaluateExpr keep item)
    (from_option (λ w, [CallEvaluate w]) [] (when item)).
Proof.
  unfold contextFilterStep, whenOf, MenuItemContribution_when.
  destruct (when item) as [w|]; [|apply callsWithin_ret].
  change (from_option (λ w, [CallEvaluate w]) [] (Some w))
    with ([CallEvaluate w] ++ []).
  apply callsWithin_bind; [by split|].
  intros v. destruct (negb (truthy v)); apply callsWithin_ret.
Qed.

Lemma concat_when_calls (items : list MenuItemContribution) :
  concat ((λ item, from_option (λ w, [CallEvaluate w]) [] (when item)) <$> items)
  = CallEvaluate <$> omap when items.
Proof.
  induction items as [|item items IH]; [done|].
  rewrite fmap_cons. simpl. rewrite IH. by destruct (when item).
Qed.

Lemma contextFilterStep_log_exact `{Collaborators} (context : Context)
    (evaluateExpr : string → MutableContext → Outcome JsValue)
    (keep : list MenuItemContribution) (item : MenuItemContribution) :
  logOf (contextFilterStep context evaluateExpr keep item)
  = from_option (λ w, [CallEvaluate w]) [] (when item).
Proof.
  unfold contextFilterStep, whenOf, MenuItemContribution_when.
  destruct (when item) as [w|]; [|done].
  unfold callEvaluate, logOf, mbind, M_bind.
  destruct (evaluateExpr w (createChildContext context)) as [v|]; [|done].
  by destruct (negb (truthy v)).
Qed.

(** The loop of [contextFilter] makes the calls expected, whatever it has
    kept so far. *)
Lemma contextFilter_loop_log_exact `{Collaborators} (context : Context)
    (evaluateExpr : string → MutableContext → Outcome JsValue)
    (keep items : list MenuItemContribution) :
  logOf (forOf (contextFilterStep context evaluateExpr) keep items)
  = whenCalls context evaluateExpr items.
Proof.
  revert keep. induction items as [|item items IH]; intros keep; [done|].
  cbn [forOf whenCalls].
  rewrite logOf_bind, contextFilterStep_log_exact, contextFilterStep_outcome.
  unfold whenThrows.
  destruct (when item) as [w|]; cbn [from_option]; [|apply IH].
  destruct (evaluateExpr w (createChildContext context)) as [v|];
    [|done].
  cbn [app]. f_equal. apply IH.
Qed.

(** The exception that the loop throws is the one of the first item whose
    [when] throws. *)
Lemma contextFilter_loop_thrown `{Collaborators} (context : Context)
    (evaluateExpr : string → MutableContext → Outcome JsValue)
    (keep items : list MenuItemContribution) (err : Error) :
  outcomeOf (forOf (contextFilterStep context evaluateExpr) keep items)
  = Thrown err →
  ∃ before item after w,
    items = before ++ item :: after
    ∧ Forall (λ item, whenThrows context evaluateExpr item = false) before
    ∧ when item = Some w
    ∧ evaluateExpr w (createChildContext context) = Thrown err.
Proof.
  revert keep. induction items as [|item items IH]; intros keep; [done|].
  rewrite forOf_cons_outcome, contextFilterStep_outcome.
  destruct (whenThrows context evaluateExpr item) eqn:Et.
  - unfold whenThrows in Et. destruct (when item) as [w|] eqn:Ew; [|done].
    destruct (evaluateExpr w (createChildContext context)) as [v|err'] eqn:Ev;
      [done|].
    intros [= <-]. exists [], item, items, w. by split_and!.
  - cbn [mbind Outcome_bind].
    intros (before & item' & after & w & -> & Hbefore & Hw & Hthrown)%IH.
    exists (item :: before), item', after, w.
    split_and!; [done|by constructor|done..].
Qed.

(** X12. [contextFilter] calls the expression evaluator once for each item
    that has a [when], on that [when], in the order of the items, makes no
    call for an item without [when], and makes no call after one that
    throws: its log is exactly the calls up to and including the first
    that throws. When it returns, no [when] has thrown and the items kept
    are exactly the items that are shown, a subsequence of the items given
    that holds every item without [when]; when it throws, the exception is
    the one of the first item whose [when] throws. *)
Theorem contextFilter_calls `{Collaborators} (context : Context)
    (items : list MenuItemContribution)
    (evaluateExpr : string → MutableContext → Outcome JsValue) :
  logOf (contextFilter context items evaluateExpr)
  = whenCalls context evaluateExpr items
  ∧ callsWithin (contextFilter context items evaluateExpr)
      (CallEvaluate <$> omap when items)
  ∧ match outcomeOf (contextFilter context items evaluateExpr) with
    | Returned kept =>
        kept = filter (λ item, shown context evaluateExpr item) items
        ∧ Forall (λ item, whenThrows context evaluateExpr item = false) items
        ∧ kept `sublist_of` items
        ∧ ∀ item, item ∈ items → when item = None → item ∈ kept
    | Thrown err =>
        Exists (λ item, whenThrows context evaluateExpr item = true) items
        ∧ ∃ before item after w,
            items = before ++ item :: after
            ∧ Forall (λ item, whenThrows context evaluateExpr item = false)
                before
            ∧ when item = Some w
            ∧ evaluateExpr w (createChildContext context) = Thrown err
    end.
Proof.
  split_and!.
  - apply contextFilter_loop_log_exact.
  - rewrite <-concat_when_calls. apply callsWithin_forOf.
    intros keep item. apply contextFilterStep_calls.
  - destruct (decide (Forall (λ item, whenThrows context evaluateExpr item = false)
                        items)) as [Hall|Hnot].
    + rewrite contextFilter_returns by done.
      split_and!; [done|done|apply sublist_filter|].
      intros item Hin Hwhen. apply list_elem_of_filter. split; [|done].
      unfold shown. by rewrite Hwhen.
    + apply not_Forall_Exists in Hnot; [|apply _].
      assert (Exists (λ item, whenThrows context evaluateExpr item = true) items)
        as Hex.
      { eapply Exists_impl; [exact Hnot|]. simpl.
        intros item. by destruct (whenThrows _ _ item). }
      destruct (contextFilter_throws context evaluateExpr items Hex)
        as [err Herr].
      rewrite Herr. split; [done|].
      by apply (contextFilter_loop_thrown context evaluateExpr [] items err).
Qed.

(** ** The default template evaluator *)

Lemma prefix_spec (needle haystack : string) :
  String.prefix needle haystack = true ↔ ∃ after, haystack = needle +:+ after.
Proof.
  revert haystack. induction needle as [|a needle IH]; intros haystack.
  - split; [intros _; by exists haystack|intros _; by destruct haystack].
  - destruct haystack as [|b haystack]; simpl.
    + split; [done|by intros [after [=]]].
    + destruct (Ascii.ascii_dec a b) as [->|Hne].
      * rewrite IH. split; intros [after Hafter]; exists after;
          [by rewrite Hafter|by injection Hafter].
      * split; [done|]. intros [after [= -> _]]. done.
Qed.

Lemma includes_spec (haystack needle : string) :
  includes haystack needle = true
  ↔ ∃ before after, haystack = before +:+ needle +:+ after.
Proof.
  induction haystack as [|a haystack IH].
  - change (includes "" needle) with (String.prefix needle "" || false).
    rewrite orb_false_r, prefix_spec. split.
    + intros [after ->]. by exists "", after.
    + intros (before & after & Heq). destruct before; [|done]. by exists after.
  - change (includes (String a haystack) needle)
      with (String.prefix needle (String a haystack) || includes haystack needle).
    rewrite orb_true_iff, IH, prefix_spec. split.
    + intros [[after ->]|(before & after & ->)].
      * by exists "", after.
      * by exists (String a before), after.
    + intros (before & after & Heq). destruct before as [|b before].
      * left. by exists after.
      * right. injection Heq as -> ->. by exists before, after.
Qed.

(** X13. [needsEvaluation] of the default template evaluator holds of a
    string exactly when [TEMPLATE_BEGIN] occurs in it. *)
Theorem default_needsEvaluation_spec `{Collaborators} (template : string) :
  te_needsEvaluation DEFAULT_TEMPLATE_EVALUATOR template = true
  ↔ ∃ before after, template = before +:+ TEMPLATE_BEGIN +:+ after.
Proof. apply includes_spec. Qed.

(** ** Interpolation of whole contributions *)

Section interpolation_lists.
Context `{Collaborators}.
Implicit Types (context : Context) (te : TemplateEvaluator).
Implicit Types (c : CommandContribution) (cs : list CommandContribution).

Lemma mapM_Returned {A B} (f : A → Outcome B) (l : list A) (k : list B) :
  mapM f l = Returned k → Forall2 (λ x y, f x = Returned y) l k.
Proof.
  revert k. induction l as [|x l IH]; intros k; simpl.
  - intros [= <-]. constructor.
  - destruct (f x) as [y|] eqn:Ex; simpl; [|done].
    destruct (mapM f l) as [k'|]; simpl; [|done].
    intros [= <-]. constructor; [done|by apply IH].
Qed.

Lemma mapM_Thrown {A B} (f : A → Outcome B) (l : list A) err :
  mapM f l = Thrown err → ∃ x, x ∈ l ∧ f x = Thrown err.
Proof.
  induction l as [|x l IH]; simpl; [done|].
  destruct (f x) as [y|err'] eqn:Ex; simpl.
  - destruct (mapM f l) as [k'|err']; simpl; [done|].
    intros [= <-]. destruct IH as (x' & ? & ?); [done|].
    exists x'. by rewrite elem_of_cons; eauto.
  - intros [= <-]. exists x. by rewrite elem_of_cons; eauto.
Qed.

Lemma mapM_app {A B} (f : A → Outcome B) (l1 l2 : list A) :
  mapM f (l1 ++ l2) = xs ← mapM f l1; ys ← mapM f l2; mret (xs ++ ys).
Proof.
  induction l1 as [|x l1 IH]; simpl.
  - by destruct (mapM f l2).
  - destruct (f x); simpl; [|done]. rewrite IH.
    destruct (mapM f l1); simpl; [|done]. by destruct (mapM f l2).
Qed.

Lemma mapM_all_Returned {A B} (f : A → Outcome B) (g : A → B) (l : list A) :
  (∀ x, x ∈ l → f x = Returned (g x)) → mapM f l = Returned (g <$> l).
Proof.
  induction l as [|x l IH]; intros Hf; [done|]. simpl.
  rewrite (Hf x) by (by left). simpl.
  rewrite IH; [done|]. intros x' Hin. apply Hf. by right.
Qed.

Lemma commandAfter_not_interpolated context te c :
  interpolatedCommand te c = false →
  commandAfter context te c = Returned (SameObject c).
Proof.
  intros Ei. unfold commandAfter. rewrite Ei.
  unfold interpolatedCommand in Ei.
  apply orb_false_elim in Ei as [[[[H1 H2]%orb_false_elim H3]%orb_false_elim
                                    H4]%orb_false_elim H5].
  by rewrite !fieldAfter_not_interpolated, actionItemAfter_not_interpolated.
Qed.

Lemma interpolated_plain c (field : option string) :
  plainCommand c → field ∈ displaySlots c →
  interpolated DEFAULT_TEMPLATE_EVALUATOR field = false.
Proof.
  intros Hplain Hin. destruct field as [s|]; [|done]. simpl.
  rewrite (Hplain s); [apply andb_false_r|].
  apply list_elem_of_omap. by exists (Some s).
Qed.

Lemma interpolatedCommand_plain c :
  plainCommand c → interpolatedCommand DEFAULT_TEMPLATE_EVALUATOR c = false.
Proof.
  intros Hplain. unfold interpolatedCommand.
  rewrite !(interpolated_plain c) by (done || (unfold displaySlots; set_solver)).
  simpl. destruct (actionItem c) as [a|] eqn:Ea; [|done]. simpl.
  unfold interpolatedActionItem.
  by rewrite !(interpolated_plain c)
    by (done || (unfold displaySlots; rewrite Ea; simpl; set_solver)).
Qed.
End interpolation_lists.

(** X14. With the default template evaluator, contributions in which no
    display field of any command contains [TEMPLATE_BEGIN] are returned as
    they are: every command is pushed as the object of the input, nothing
    throws, and the template evaluator is never called. *)
Theorem plain_commands_untouched `{Collaborators} (context : Context)
    (contributions : Contributions) :
  (∀ c, c ∈ commandsOf contributions → plainCommand c) →
  outcomeOf (evaluateContributions context contributions
               DEFAULT_TEMPLATE_EVALUATOR)
  = Returned contributions
  ∧ (∀ c, c ∈ commandsOf contributions →
       outcomeOf (evaluateCommand context DEFAULT_TEMPLATE_EVALUATOR c)
       = Returned (SameObject c))
  ∧ ∀ s, CallEvaluateTemplate s
         ∉ logOf (evaluateContributions context contributions
                    DEFAULT_TEMPLATE_EVALUATOR).
Proof.
  intros Hplain. split_and!.
  - rewrite evaluateContributions_outcome. unfold commandsOf in Hplain.
    destruct contributions as [[cs|] m]; simpl in *; [|done].
    rewrite (mapM_all_Returned _ SameObject).
    + simpl. rewrite <-list_fmap_compose. by rewrite list_fmap_id.
    + intros c Hc.
      by apply commandAfter_not_interpolated, interpolatedCommand_plain, Hplain.
  - intros c Hc. rewrite evaluateCommand_outcome.
    by apply commandAfter_not_interpolated, interpolatedCommand_plain, Hplain.
  - intros s Hin.
    eapply callsWithin_elem_of in Hin; [|apply evaluateContributions_calls].
    apply elem_of_concat in Hin as (calls & (c & -> & Hc)%list_elem_of_fmap & Hin).
    apply elem_of_expectedCallsOfCommand
      in Hin as (s' & Hs' & _ & [?|[[= <-] Hneeds]]); [done|].
    simpl in Hneeds. by rewrite (Hplain c Hc s Hs') in Hneeds.
Qed.

Lemma plain_commands_untouched_witness :
  outcomeOf (@evaluateContributions exampleCollaborators exampleContext
               (contributions brokenEntry) DEFAULT_TEMPLATE_EVALUATOR)
  = Returned (contributions brokenEntry).
Proof.
  refine (proj1 (@plain_commands_untouched exampleCollaborators exampleContext
                   (contributions brokenEntry) _)).
  intros c Hc s Hs. vm_compute in Hc.
  apply list_elem_of_singleton in Hc as ->. vm_compute in Hs.
  apply list_elem_of_singleton in Hs as ->. reflexivity.
Defined.

(** X15. When [evaluateContributions] returns, the result has the commands
    of the input, one for one and in the same order, with the same command
    identifiers, and has a [commands] property exactly when the input has
    one; when it throws, the interpolation of one of the commands of the
    input throws that exception. *)
Theorem evaluateContributions_preserves_commands `{Collaborators}
    (context : Context) (contributions : Contributions)
    (te : TemplateEvaluator) :
  match outcomeOf (evaluateContributions context contributions te) with
  | Returned result =>
      command <$> commandsOf result = command <$> commandsOf contributions
      ∧ length (commandsOf result) = length (commandsOf contributions)
      ∧ (is_Some (commands result) ↔ is_Some (commands contributions))
  | Thrown err =>
      ∃ c, c ∈ commandsOf contributions
           ∧ outcomeOf (evaluateCommand context te c) = Thrown err
  end.
Proof.
  rewrite evaluateContributions_outcome. unfold commandsOf.
  destruct (commands contributions) as [cs|] eqn:Ec; simpl;
    [|by rewrite Ec].
  destruct (mapM (commandAfter context te) cs) as [es|err] eqn:Em; simpl.
  - apply mapM_Returned in Em.
    assert (command <$> (objectValue <$> es) = command <$> cs) as Hids.
    { clear Ec. induction Em as [|c e cs es Hce _ IH]; [done|].
      rewrite !fmap_cons, IH. f_equal.
      by apply commandAfter_fields in Hce as (_ & _ & _ & _ & _ & -> & _). }
    split_and!; [done| |by split; eauto].
    by rewrite <-(length_fmap command), Hids, length_fmap.
  - apply mapM_Thrown in Em as (c & Hc & Hthrown).
    exists c. by rewrite evaluateCommand_outcome.
Qed.

(** ** Evaluation and merge *)

Section evaluation_and_merge.
Context `{Collaborators}.
Implicit Types (context : Context) (te : TemplateEvaluator).
Implicit Types (evaluateExpr : string → MutableContext → Outcome JsValue).
Implicit Types (a b c : Contributions) (cs : list Contributions).

Lemma Contributions_eq a b :
  commands a = commands b → menus a = menus b → a = b.
Proof. destruct a, b; simpl; by intros -> ->. Qed.

(** Interpolating the merge of two contributions is merging their
    interpolations. *)
Lemma evaluateContributions_mergeStep context te a b :
  outcomeOf (evaluateContributions context (mergeStep a b) te)
  = a' ← outcomeOf (evaluateContributions context a te);
    b' ← outcomeOf (evaluateContributions context b te);
    mret (mergeStep a' b').
Proof.
  rewrite !evaluateContributions_outcome.
  destruct a as [[ca|] ma], b as [[cb|] mb]; simpl; try done.
  - rewrite mapM_app.
    destruct (mapM _ ca) as [xs|]; simpl; [|done].
    destruct (mapM _ cb) as [ys|]; simpl; [|done].
    by rewrite fmap_app.
  - by destruct (mapM _ ca) as [xs|].
  - by destruct (mapM _ cb) as [ys|].
Qed.

Lemma evaluateContributions_mergeContributions context te cs :
  outcomeOf (evaluateContributions context (mergeContributions cs) te)
  = mergeContributions
    <$> mapM (λ c, outcomeOf (evaluateContributions context c te)) cs.
Proof.
  induction cs as [|c cs IH]; [done|].
  rewrite mergeContributions_cons, evaluateContributions_mergeStep, IH.
  change (mapM ?f (c :: cs)) with (y ← f c; k ← mapM f cs; mret (y :: k)).
  destruct (outcomeOf (evaluateContributions context c te)) as [c'|]; [|done].
  destruct (mapM _ cs) as [k|]; [|done].
  cbn [fmap Outcome_fmap mbind Outcome_bind mret Outcome_ret].
  by rewrite mergeContributions_cons.
Qed.

(** The outcome of [filterContributions]. *)
Lemma filterContributions_cases context evaluateExpr c :
  filterable context evaluateExpr c
  ∧ outcomeOf (filterContributions context c evaluateExpr)
    = Returned (filteredOf context evaluateExpr c)
  ∨ ¬ filterable context evaluateExpr c
    ∧ ∃ err, outcomeOf (filterContributions context c evaluateExpr) = Thrown err.
Proof.
  unfold filterable, filteredOf.
  destruct (menus c) as [m|] eqn:Em; simpl.
  - destruct (decide (menusEvaluate context evaluateExpr m)) as [Hall|Hnot].
    + left. split; [done|]. by apply filterContributions_returns.
    + right. split; [done|]. by apply filterContributions_throws with m.
  - left. split; [done|]. rewrite filterContributions_no_menus by done.
    simpl. f_equal. by apply Contributions_eq.
Qed.

Lemma shownMenus_union context evaluateExpr (ma mb : MenuContributions) :
  shownMenus context evaluateExpr (union_with appendItems ma mb)
  = union_with appendItems (shownMenus context evaluateExpr ma)
      (shownMenus context evaluateExpr mb).
Proof.
  apply map_eq; intros k. unfold shownMenus.
  rewrite lookup_fmap, !lookup_union_with, !lookup_fmap.
  destruct (ma !! k), (mb !! k); simpl; try done.
  unfold appendItems. by rewrite filter_app.
Qed.

Lemma menusEvaluate_union context evaluateExpr (ma mb : MenuContributions) :
  menusEvaluate context evaluateExpr (union_with appendItems ma mb)
  ↔ menusEvaluate context evaluateExpr ma
    ∧ menusEvaluate context evaluateExpr mb.
Proof.
  unfold menusEvaluate. rewrite !map_Forall_lookup. split.
  - intros Hall. split; intros k items Hk.
    + pose proof (Hall k) as Hk'. rewrite lookup_union_with, Hk in Hk'.
      destruct (mb !! k) as [items'|]; simpl in Hk'.
      * by apply (Forall_app _ items items'), Hk'.
      * by apply Hk'.
    + pose proof (Hall k) as Hk'. rewrite lookup_union_with, Hk in Hk'.
      destruct (ma !! k) as [items'|]; simpl in Hk'.
      * by apply (Forall_app _ items' items), Hk'.
      * by apply Hk'.
  - intros [Ha Hb] k items. rewrite lookup_union_with.
    destruct (ma !! k) as [x|] eqn:Ea, (mb !! k) as [y|] eqn:Eb; simpl;
      intros [= <-]; rewrite ?Forall_app; eauto.
Qed.

Lemma filteredOf_mergeStep context evaluateExpr a b :
  filteredOf context evaluateExpr (mergeStep a b)
  = mergeStep (filteredOf context evaluateExpr a)
      (filteredOf context evaluateExpr b).
Proof.
  apply Contributions_eq.
  - by destruct a as [[?|] ?], b as [[?|] ?].
  - unfold filteredOf at 1. cbn [menus]. rewrite !menus_mergeStep.
    unfold filteredOf. cbn [menus].
    destruct (menus a), (menus b); simpl; try done.
    by rewrite shownMenus_union.
Qed.

Lemma filterable_mergeStep context evaluateExpr a b :
  filterable context evaluateExpr (mergeStep a b)
  ↔ filterable context evaluateExpr a ∧ filterable context evaluateExpr b.
Proof.
  unfold filterable. rewrite menus_mergeStep.
  destruct (menus a), (menus b); simpl; rewrite ?menusEvaluate_union; tauto.
Qed.

Lemma filteredOf_mergeContributions context evaluateExpr cs :
  filteredOf context evaluateExpr (mergeContributions cs)
  = mergeContributions (filteredOf context evaluateExpr <$> cs).
Proof.
  induction cs as [|c cs IH]; [done|].
  by rewrite fmap_cons, !mergeContributions_cons, filteredOf_mergeStep, IH.
Qed.

Lemma filterable_mergeContributions context evaluateExpr cs :
  filterable context evaluateExpr (mergeContributions cs)
  ↔ Forall (filterable context evaluateExpr) cs.
Proof.
  induction cs as [|c cs IH].
  - split; [constructor|done].
  - by rewrite mergeContributions_cons, filterable_mergeStep, IH, Forall_cons.
Qed.

Lemma filterable_filteredOf context evaluateExpr c :
  filterable context evaluateExpr (filteredOf context evaluateExpr c).
Proof.
  unfold filterable, filteredOf. simpl.
  destruct (menus c) as [m|]; simpl; [|done].
  unfold menusEvaluate, shownMenus. apply map_Forall_lookup.
  intros k items. rewrite lookup_fmap.
  destruct (m !! k) as [items'|]; simpl; [|done]. intros [= <-].
  apply Forall_forall. intros item [Hshown _]%list_elem_of_filter.
  unfold shown in Hshown. unfold whenThrows.
  destruct (when item); [|done]. by destruct (evaluateExpr _ _).
Qed.

Lemma filteredOf_idemp context evaluateExpr c :
  filteredOf context evaluateExpr (filteredOf context evaluateExpr c)
  = filteredOf context evaluateExpr c.
Proof.
  apply Contributions_eq; [done|]. unfold filteredOf. simpl.
  destruct (menus c) as [m|]; simpl; [|done]. f_equal.
  apply map_eq; intros k. unfold shownMenus. rewrite !lookup_fmap.
  destruct (m !! k) as [items|]; simpl; [|done]. f_equal.
  rewrite list_filter_filter. apply list_filter_iff. tauto.
Qed.
End evaluation_and_merge.

(** X16. Interpolating merged contributions gives the merge of the
    interpolated contributions: [evaluateContributions] of the merge of a
    list returns the merge of what it returns on each element, and throws
    the exception of the first element on which it throws. *)
Theorem evaluateContributions_merge `{Collaborators} (context : Context)
    (te : TemplateEvaluator) (cs : list Contributions) :
  outcomeOf (evaluateContributions context (mergeContributions cs) te)
  = mergeContributions
    <$> mapM (λ c, outcomeOf (evaluateContributions context c te)) cs.
Proof. apply evaluateContributions_mergeContributions. Qed.

(** X17. Filtering merged contributions gives the merge of the filtered
    contributions: when [filterContributions] returns on every element of a
    list, it returns on the merge of the list, and what it returns is the
    merge of what it returns on the elements; when it throws on some
    element, it throws on the merge. *)
Theorem filterContributions_merge `{Collaborators} (context : Context)
    (evaluateExpr : string → MutableContext → Outcome JsValue)
    (cs : list Contributions) :
  if decide (Forall (filterable context evaluateExpr) cs)
  then
    Forall (λ c, outcomeOf (filterContributions context c evaluateExpr)
                 = Returned (filteredOf context evaluateExpr c)) cs
    ∧ outcomeOf (filterContributions context (mergeContributions cs) evaluateExpr)
      = Returned (mergeContributions (filteredOf context evaluateExpr <$> cs))
  else
    Exists (λ c, ∃ err, outcomeOf (filterContributions context c evaluateExpr)
                        = Thrown err) cs
    ∧ ∃ err,
        outcomeOf (filterContributions context (mergeContributions cs) evaluateExpr)
        = Thrown err.
Proof.
  case_decide as Hall.
  - split.
    + eapply Forall_impl; [exact Hall|]. intros c Hc. simpl.
      by destruct (filterContributions_cases context evaluateExpr c)
        as [[_ ?]|[? _]].
    + apply filterable_mergeContributions in Hall.
      rewrite <-filteredOf_mergeContributions.
      by destruct (filterContributions_cases context evaluateExpr
                     (mergeContributions cs)) as [[_ ?]|[? _]].
  - split.
    + apply not_Forall_Exists in Hall; [|apply _].
      eapply Exists_impl; [exact Hall|]. intros c Hc. simpl in Hc.
      by destruct (filterContributions_cases context evaluateExpr c)
        as [[? _]|[_ ?]].
    + rewrite <-filterable_mergeContributions in Hall.
      by destruct (filterContributions_cases context evaluateExpr
                     (mergeContributions cs)) as [[? _]|[_ ?]].
Qed.

(** X18. Filtering is idempotent: what [filterContributions] returns, it
    returns again when given it, in the same context. *)
Theorem filterContributions_idempotent `{Collaborators} (context : Context)
    (contributions : Contributions)
    (evaluateExpr : string → MutableContext → Outcome JsValue) :
  match outcomeOf (filterContributions context contributions evaluateExpr) with
  | Returned filtered =>
      outcomeOf (filterContributions context filtered evaluateExpr)
      = Returned filtered
  | Thrown _ => ¬ filterable context evaluateExpr contributions
  end.
Proof.
  destruct (filterContributions_cases context evaluateExpr contributions)
    as [[_ ->]|[Hnot [err ->]]]; [|done].
  destruct (filterContributions_cases context evaluateExpr
              (filteredOf context evaluateExpr contributions))
    as [[_ ->]|[Hnot _]].
  - by rewrite filteredOf_idemp.
  - destruct Hnot. apply filterable_filteredOf.
Qed.
